(** * Ranked-choice (instant-runoff) counting core of audit-lab

    A shallow embedding of [code/rcv.py] (ballot normalisation, the
    elimination round, the winner loop, tally/ballot-list conversion) and
    of the IRV entry of [code/outcomes.py] (the rank-token adapter),
    followed by the properties of these functions.

    Modelling choices.
    - A choice is a Python [str]; it is a [string] here (the byte string of
      its UTF-8 encoding, on which byte-wise comparison is code-point
      comparison).
    - A ballot is a Python tuple of choices: a [list string].
    - A Python [dict] is an association list in insertion order.  Python
      keeps keys unique; [Dict.wf] states it.  Assignment [d[k] = v] keeps
      the position of a key that is present and appends a new key at the
      end, as CPython does.
    - Counts are Python [int]s, [Z], in [Rcv] and [Outcomes]: every sum
      there is exact.  rcv.py also takes [float] counts, whose sums round;
      [RcvFloat] has the round on such counts, with binary64 floats.
    - [assert] failures and failed tuple unpacking are values of [error].
    - The [while True] loop of [rcv_winner] takes fuel; [None] means that
      the fuel ran out. *)

From Stdlib Require Import String Ascii List ZArith Lia Bool Arith.
From Stdlib Require Import Permutation Sorted RelationClasses OrderedTypeEx.
From Stdlib Require PrimFloat FloatOps SpecFloat.
Import ListNotations.

Local Open Scope string_scope.
Local Open Scope list_scope.

(* ================================================================== *)
(** * Definitions *)
(* ================================================================== *)

(** Decidable equality on dictionary keys. *)
Class EqDec (A : Type) := eq_dec : forall x y : A, {x = y} + {x <> y}.

#[export] Instance string_EqDec : EqDec string := string_dec.
#[export] Instance list_EqDec {A : Type} `{EqDec A} : EqDec (list A) :=
  list_eq_dec eq_dec.
#[export] Instance prod_EqDec {A B : Type} `{EqDec A} `{EqDec B}
  : EqDec (A * B).
Proof. intros [a b] [a' b']. unfold EqDec in *. decide equality. Defined.

(** ** Python dictionaries *)
Module Dict.
Section Defs.
Context {K V : Type} `{EqDec K}.

Definition dict : Type := list (K * V).

Definition keys (d : dict) : list K := map fst d.
Definition values (d : dict) : list V := map snd d.

(** [d[k]], with [None] for a [KeyError]. *)
Fixpoint get (d : dict) (k : K) : option V :=
  match d with
  | [] => None
  | (k', v) :: r => if eq_dec k' k then Some v else get r k
  end.

(** [d[k] = v] *)
Fixpoint set (d : dict) (k : K) (v : V) : dict :=
  match d with
  | [] => [(k, v)]
  | (k', v') :: r =>
      if eq_dec k' k then (k', v) :: r else (k', v') :: set r k v
  end.

Definition wf (d : dict) : Prop := NoDup (keys d).
End Defs.
Arguments dict : clear implicits.

(** The counting update of the tallies,
    [d[k] = d[k] + c if k in d else c]. *)
Definition accum {K : Type} `{EqDec K} (d : dict K Z) (k : K) (c : Z)
    : dict K Z :=
  set d k (match get d k with Some n => n + c | None => c end)%Z.
End Dict.

(** ** Sorting, as Python's [sorted]: a stable sort by [leb] *)
Section Sorted.
Context {A : Type} (leb : A -> A -> bool).

Fixpoint insert (x : A) (l : list A) : list A :=
  match l with
  | [] => [x]
  | y :: r => if leb x y then x :: l else y :: insert x r
  end.

Fixpoint sorted (l : list A) : list A :=
  match l with
  | [] => []
  | x :: r => insert x (sorted r)
  end.

(** The order that [leb] decides. *)
Definition leb_le (x y : A) : Prop := leb x y = true.
End Sorted.

Inductive error : Type :=
| AssertionError   (* [assert len(d)>0]: all candidates eliminated *)
| IndexError
| ValueError.      (* unpacking [rank_candidate.split("-")] into two names *)

Definition result (A : Type) : Type := (error + A)%type.

(** ** rcv.py *)
Module Rcv.

Definition Choice : Type := string.
Definition Ballot : Type := list Choice.
Definition Tally : Type := Dict.dict Ballot Z.

Definition undervote : Choice := "undervote".
Definition overvote : Choice := "overvote".

(** [new_tally[nb] = new_tally[nb] + c if nb in new_tally.keys() else c] *)
Definition add_ballot (new_tally : Tally) (new_ballot : Ballot)
    (ballot_tally : Z) : Tally :=
  Dict.set new_tally new_ballot
    (match Dict.get new_tally new_ballot with
     | Some n => n + ballot_tally
     | None => ballot_tally
     end)%Z.

(** The inner loop of [delete_double_undervotes]: [i] runs over
    [range(len(ballot)-1)] and [double_uv_at] starts at [len(ballot)]. *)
Definition double_uv_step (ballot : Ballot) (double_uv_at i : nat) : nat :=
  if String.eqb (nth i ballot "") undervote
     && String.eqb (nth (i + 1) ballot "") undervote
     && Nat.eqb double_uv_at (length ballot)
  then i else double_uv_at.

Definition find_double_uv (ballot : Ballot) : nat :=
  fold_left (double_uv_step ballot) (seq 0 (length ballot - 1)) (length ballot).

Definition delete_double_undervotes (tally : Tally) : Tally :=
  fold_left
    (fun new_tally '(ballot, ballot_tally) =>
       let double_uv_at := find_double_uv ballot in
       let new_ballot := firstn double_uv_at ballot in
       add_ballot new_tally new_ballot ballot_tally)
    tally [].

(** [name in ballot] *)
Definition name_in (name : Choice) (ballot : Ballot) : bool :=
  existsb (String.eqb name) ballot.

(** The loop [for c in ballot] of [delete_name]; [break] ends it. *)
Fixpoint delete_name_loop (name : Choice) (delete_following : bool)
    (ballot : Ballot) : Ballot :=
  match ballot with
  | [] => []
  | c :: rest =>
      if negb (String.eqb c name)
      then c :: delete_name_loop name delete_following rest
      else if delete_following then []
      else delete_name_loop name delete_following rest
  end.

Definition delete_name_ballot (name : Choice) (delete_following : bool)
    (ballot : Ballot) : Ballot :=
  if name_in name ballot
  then delete_name_loop name delete_following ballot
  else ballot.

Definition delete_name (tally : Tally) (name : Choice)
    (delete_following : bool) : Tally :=
  fold_left
    (fun new_tally '(ballot, ballot_tally) =>
       add_ballot new_tally
         (delete_name_ballot name delete_following ballot) ballot_tally)
    tally [].

Definition delete_undervotes (tally : Tally) : Tally :=
  let tally := delete_double_undervotes tally in
  let tally := delete_name tally undervote false in
  tally.

Definition delete_overvotes (tally : Tally) : Tally :=
  delete_name tally overvote true.

(** The body of the loop of [count_first_choices]. *)
Definition count_first_choice (d : Dict.dict Choice Z) (item : Ballot * Z)
    : Dict.dict Choice Z :=
  let '(ballot, count) := item in
  match ballot with
  | [] => d
  | first_choice :: _ =>
      match Dict.get d first_choice with
      | Some n => Dict.set d first_choice (count + n)%Z
      | None => Dict.set d first_choice count
      end
  end.

Definition count_first_choices (tally : Tally) : Dict.dict Choice Z :=
  fold_left count_first_choice tally [].

(** [tie_breaker.index(name)] *)
Fixpoint index (tie_breaker : list Choice) (name : Choice) : nat :=
  match tie_breaker with
  | [] => 0
  | c :: rest => if String.eqb c name then 0 else S (index rest name)
  end.

Definition tie_breaker_index (tie_breaker : list Choice) (name : Choice)
    : nat :=
  if name_in name tie_breaker then index tie_breaker name
  else length tie_breaker.

(** Python's order on the tuples [(d[k], -tie_breaker_index, k)]. *)
Definition tuple_leb (x y : Z * Z * Choice) : bool :=
  let '(c1, r1, k1) := x in
  let '(c2, r2, k2) := y in
  match (c1 ?= c2)%Z with
  | Lt => true
  | Gt => false
  | Eq =>
      match (r1 ?= r2)%Z with
      | Lt => true
      | Gt => false
      | Eq => String.leb k1 k2
      end
  end.

(** [sum(l)] *)
Definition sum (l : list Z) : Z := fold_left Z.add l 0%Z.

(** The tuple [(w, d, e, LL)] returned by [rcv_round]: either [w] is a
    choice and [e], [LL] are [None], or [w] is [None]. *)
Inductive round_outcome : Type :=
| Winner (w : Choice) (d : Dict.dict Choice Z)
| Elimination (d : Dict.dict Choice Z) (e : Choice) (LL : Tally).

Definition rcv_round (tally : Tally) (tie_breaker : list Choice)
    : result round_outcome :=
  let d := count_first_choices tally in
  if Nat.ltb 0 (length d) then
    if Nat.eqb (length d) 1 then
      match Dict.keys d with
      | w :: _ => inr (Winner w d)
      | [] => inl IndexError
      end
    else
      let total_first_choices := sum (Dict.values d) in
      match find (fun kv => Z.eqb (snd kv) total_first_choices) d with
      | Some (choice, _) => inr (Winner choice d)
      | None =>
          let E := map (fun kv =>
                          (snd kv,
                           (- Z.of_nat (tie_breaker_index tie_breaker (fst kv)))%Z,
                           fst kv)) d in
          let E := sorted tuple_leb E in
          match E with
          | (_, _, e) :: _ =>
              let LL := delete_name tally e false in
              inr (Elimination d e LL)
          | [] => inl IndexError
          end
      end
  else inl AssertionError.

(** [rcv_winner] with [printing_wanted=False]; the number returned with
    the outcome is [round_number] when the loop is left. *)
Fixpoint rcv_winner_loop (fuel : nat) (round_number : nat) (tally : Tally)
    (tie_breaker : list Choice) : option (nat * result Choice) :=
  match fuel with
  | O => None
  | S fuel' =>
      let round_number := S round_number in
      match rcv_round tally tie_breaker with
      | inl err => Some (round_number, inl err)
      | inr (Winner w _) => Some (round_number, inr w)
      | inr (Elimination _ e LL) =>
          rcv_winner_loop fuel' round_number (delete_name LL e false)
            tie_breaker
      end
  end.

Definition rcv_winner (fuel : nat) (tally : Tally)
    (tie_breaker : list Choice) : option (result Choice) :=
  option_map snd (rcv_winner_loop fuel 0 tally tie_breaker).

Definition clean (tally : Tally) : Tally :=
  let tally := delete_overvotes tally in
  let tally := delete_undervotes tally in
  tally.

(** [[ballot] * tally[ballot]]: a nonpositive count gives the empty list. *)
Definition convert_tally_to_ballots (tally : Tally) : list Ballot :=
  flat_map (fun '(ballot, n) => repeat ballot (Z.to_nat n)) tally.

Definition convert_ballots_to_tally (ballots : list Ballot) : Tally :=
  fold_left
    (fun tally ballot =>
       match Dict.get tally ballot with
       | Some n => Dict.set tally ballot (n + 1)%Z
       | None => Dict.set tally ballot 1%Z
       end)
    ballots [].

End Rcv.

(** ** rcv.py on float counts

    The same functions when the counts of the tally are Python [float]s:
    [+] is the binary64 addition, which rounds, and [==], [<] are the
    comparisons of floats. *)
Module RcvFloat.
Import Rcv.

Definition Tally : Type := Dict.dict Ballot PrimFloat.float.

Definition add_ballot (new_tally : Tally) (new_ballot : Ballot)
    (ballot_tally : PrimFloat.float) : Tally :=
  Dict.set new_tally new_ballot
    (match Dict.get new_tally new_ballot with
     | Some n => PrimFloat.add n ballot_tally
     | None => ballot_tally
     end).

Definition delete_name (tally : Tally) (name : Choice)
    (delete_following : bool) : Tally :=
  fold_left
    (fun new_tally '(ballot, ballot_tally) =>
       add_ballot new_tally
         (delete_name_ballot name delete_following ballot) ballot_tally)
    tally [].

Definition count_first_choice (d : Dict.dict Choice PrimFloat.float)
    (item : Ballot * PrimFloat.float) : Dict.dict Choice PrimFloat.float :=
  let '(ballot, count) := item in
  match ballot with
  | [] => d
  | first_choice :: _ =>
      match Dict.get d first_choice with
      | Some n => Dict.set d first_choice (PrimFloat.add count n)
      | None => Dict.set d first_choice count
      end
  end.

Definition count_first_choices (tally : Tally)
    : Dict.dict Choice PrimFloat.float :=
  fold_left count_first_choice tally [].

(** Python's [<] on the tuples [(d[k], -tie_breaker_index, k)]: the first
    components that are not [==] decide. *)
Definition tuple_ltb (x y : PrimFloat.float * Z * Choice) : bool :=
  let '(c1, r1, k1) := x in
  let '(c2, r2, k2) := y in
  if negb (PrimFloat.eqb c1 c2) then PrimFloat.ltb c1 c2
  else if negb (Z.eqb r1 r2) then Z.ltb r1 r2
  else String.ltb k1 k2.

(** The sort leaves [x] before [y] unless [y < x]. *)
Definition tuple_leb (x y : PrimFloat.float * Z * Choice) : bool :=
  negb (tuple_ltb y x).

(** [sum(l)]: the [int] 0, then float additions from the left. *)
Definition sum (l : list PrimFloat.float) : PrimFloat.float :=
  fold_left PrimFloat.add l PrimFloat.zero.

Inductive round_outcome : Type :=
| Winner (w : Choice) (d : Dict.dict Choice PrimFloat.float)
| Elimination (d : Dict.dict Choice PrimFloat.float) (e : Choice) (LL : Tally).

Definition rcv_round (tally : Tally) (tie_breaker : list Choice)
    : result round_outcome :=
  let d := count_first_choices tally in
  if Nat.ltb 0 (length d) then
    if Nat.eqb (length d) 1 then
      match Dict.keys d with
      | w :: _ => inr (Winner w d)
      | [] => inl IndexError
      end
    else
      let total_first_choices := sum (Dict.values d) in
      match find (fun kv => PrimFloat.eqb (snd kv) total_first_choices) d with
      | Some (choice, _) => inr (Winner choice d)
      | None =>
          let E := map (fun kv =>
                          (snd kv,
                           (- Z.of_nat (tie_breaker_index tie_breaker (fst kv)))%Z,
                           fst kv)) d in
          let E := sorted tuple_leb E in
          match E with
          | (_, _, e) :: _ =>
              let LL := delete_name tally e false in
              inr (Elimination d e LL)
          | [] => inl IndexError
          end
      end
  else inl AssertionError.

End RcvFloat.

(** ** outcomes.py: the IRV entry *)
Module Outcomes.
Import Rcv.

(** [s.split(sep)] for a one-character separator. *)
Fixpoint split (sep : ascii) (s : string) : list string :=
  match s with
  | EmptyString => [EmptyString]
  | String c rest =>
      if Ascii.eqb c sep then EmptyString :: split sep rest
      else
        match split sep rest with
        | part :: parts => String c part :: parts
        | [] => [String c EmptyString]
        end
  end.

(** [next_rank, candidate = rank_candidate.split("-")] *)
Definition unpack_rank_candidate (rank_candidate : string)
    : result (string * string) :=
  match split "-" rank_candidate with
  | [next_rank; candidate] => inr (next_rank, candidate)
  | _ => inl ValueError
  end.

(** The loop [for rank_candidate in ordered_vote]. *)
Fixpoint ordered_candidates_loop (ordered_vote : list string)
    (ordered_candidates : list Choice) : result (list Choice) :=
  match ordered_vote with
  | [] => inr ordered_candidates
  | rank_candidate :: rest =>
      match unpack_rank_candidate rank_candidate with
      | inl err => inl err
      | inr (_, candidate) =>
          ordered_candidates_loop rest (ordered_candidates ++ [candidate])
      end
  end.

(** One vote through the adapter: [sorted(vote)], then the loop. *)
Definition adapt (vote : list string) : result Ballot :=
  let ordered_vote := sorted String.leb vote in
  ordered_candidates_loop ordered_vote [].

(** The loop [for vote in tally], [tally[vote]] being the count met. *)
Fixpoint ordered_tally_loop (items : Dict.dict (list string) Z)
    (ordered_tally : Tally) : result Tally :=
  match items with
  | [] => inr ordered_tally
  | (vote, n) :: rest =>
      match adapt vote with
      | inl err => inl err
      | inr ordered_candidates =>
          ordered_tally_loop rest (Dict.set ordered_tally ordered_candidates n)
      end
  end.

(** [IRV(e, cid, tally)]; [e] and [cid] are not used by the body.  The
    1-tuple [(w,)] is the list [[w]]. *)
Definition IRV (fuel : nat) (tally : Dict.dict (list string) Z)
    : option (result (list Choice)) :=
  match ordered_tally_loop tally [] with
  | inl err => Some (inl err)
  | inr ordered_tally =>
      let tie_breaker := [] in
      match rcv_winner fuel ordered_tally tie_breaker with
      | None => None
      | Some (inl err) => Some (inl err)
      | Some (inr w) => Some (inr [w])
      end
  end.

(** [compute_tally(vec)], for any hashable elements. *)
Section ComputeTally.
Context {K : Type} `{EqDec K}.

Definition compute_tally (vec : list K) : Dict.dict K Z :=
  fold_left
    (fun tally x =>
       Dict.set tally x
         ((match Dict.get tally x with Some n => n | None => 0 end) + 1)%Z)
    vec [].
End ComputeTally.

(** [compute_tally2(vec)], on pairs (actual vote, reported vote). *)
Section ComputeTally2.
Context {A R : Type} `{EqDec A} `{EqDec R}.

Definition compute_tally2 (vec : list (A * R))
    : Dict.dict R (Dict.dict A Z) :=
  fold_left
    (fun tally2 '(av, rv) =>
       match Dict.get tally2 rv with
       | None =>
           Dict.set tally2 rv
             (compute_tally
                (map fst
                   (filter (fun ar => if eq_dec rv (snd ar) then true else false)
                      vec)))
       | Some _ => tally2
       end)
    vec [].
End ComputeTally2.

(** [plurality] and [approval].  The module [ids] is not among the
    sources; [ids.is_error_selid] is a parameter. *)
Section Plurality.
Variable is_error_selid : string -> bool.

(** The float [-1e90]: it is this integer exactly, and Python compares an
    [int] with a [float] by value. *)
Definition minus_1e90 : Z :=
  (- 999999999999999966484112715463900049825186092620125502979674597309179755437379230686511104)%Z.

(** The body of the loop of [plurality] on the state
    [(max_cnt, max_vote)]; [and] does not look at [vote[0]] unless
    [len(vote) == 1]. *)
Definition plurality_step (state : Z * option (list string))
    (item : list string * Z) : Z * option (list string) :=
  let '(max_cnt, max_vote) := state in
  let '(vote, cnt) := item in
  if Z.gtb cnt max_cnt
     && Nat.eqb (length vote) 1
     && negb (is_error_selid (hd EmptyString vote))
  then (cnt, Some vote)
  else state.

(** [plurality(e, cid, tally)]; [None] is Python's [None].  The
    [assert] under [max_vote==None] tests a non-empty string literal, which
    is true: it never fails. *)
Definition plurality (tally : Dict.dict (list string) Z)
    : option (list string) :=
  snd (fold_left plurality_step tally (minus_1e90, None)).

(** [approval(e, cid, tally)] *)
Definition approval (tally : Dict.dict (list string) Z)
    : option (list string) :=
  let approval_tally :=
    fold_left
      (fun approval_tally '(accepted_candidates, count) =>
         fold_left
           (fun approval_tally candidate =>
              Dict.set approval_tally candidate
                (match Dict.get approval_tally candidate with
                 | Some n => n + count
                 | None => count
                 end)%Z)
           accepted_candidates approval_tally)
      tally [] in
  let fixed_approval_tally :=
    fold_left (fun fixed '(k, n) => Dict.set fixed [k] n) approval_tally [] in
  plurality fixed_approval_tally.
End Plurality.

End Outcomes.

(** ** The specification's vocabulary

    These definitions follow the words of the specification, not the code;
    the theorems compare them with the functions above. *)
Module Spec.
Import Rcv.

(** Overvote truncation: the first [overvote] and everything after it go. *)
Fixpoint overvote_truncation (b : Ballot) : Ballot :=
  match b with
  | [] => []
  | c :: rest =>
      if String.eqb c overvote then [] else c :: overvote_truncation rest
  end.

(** The first index [i] at which positions [i] and [i+1] are both
    [undervote]. *)
Fixpoint first_double_undervote (b : Ballot) : option nat :=
  match b with
  | [] => None
  | c :: rest =>
      match rest with
      | c' :: _ =>
          if String.eqb c undervote && String.eqb c' undervote then Some 0
          else option_map S (first_double_undervote rest)
      | [] => None
      end
  end.

(** Positions [i] and [i+1] of [b] are both [undervote]. *)
Definition double_at (b : Ballot) (i : nat) : bool :=
  String.eqb (nth i b "") undervote && String.eqb (nth (i + 1) b "") undervote.

(** Double-undervote truncation: keep the prefix before that index. *)
Definition double_undervote_truncation (b : Ballot) : Ballot :=
  match first_double_undervote b with
  | Some i => firstn i b
  | None => b
  end.

(** Single-undervote removal: every [undervote] goes, nothing else. *)
Definition single_undervote_removal (b : Ballot) : Ballot :=
  filter (fun c => negb (String.eqb c undervote)) b.

Definition clean_ballot (b : Ballot) : Ballot :=
  single_undervote_removal (double_undervote_truncation (overvote_truncation b)).

(** The summed count of the ballots of [t] that [f] maps to [b]. *)
Definition summed_count (f : Ballot -> Ballot) (t : Tally) (b : Ballot) : Z :=
  fold_right Z.add 0%Z
    (map snd (filter (fun kv => if eq_dec (f (fst kv)) b then true else false) t)).

(** The tally that maps every ballot of [t] through [f] and sums the
    counts of the ballots that meet, in order of first appearance. *)
Definition merge_by (f : Ballot -> Ballot) (t acc : Tally) : Tally :=
  fold_left (fun a '(b, n) => Dict.accum a (f b) n) t acc.



(** The support of a tally: the distinct choices on its ballots. *)
Definition support (t : Tally) : list Choice :=
  nodup string_dec (concat (Dict.keys t)).

Definition sentinel (c : Choice) : Prop := c = undervote \/ c = overvote.

(** No ballot of [t] carries a sentinel token. *)
Definition sentinel_free (t : Tally) : Prop :=
  forall b c, In b (Dict.keys t) -> In c b -> ~ sentinel c.

(** The tally handed to the next round after the elimination of [e]:
    [LL = delete_name(tally, e)], then [delete_name(LL, e)]. *)
Definition next_tally (t : Tally) (e : Choice) : Tally :=
  delete_name (delete_name t e false) e false.

(** Exactly one choice of [d] has positive weight. *)
Definition sole_positive (d : Dict.dict Choice Z) : Prop :=
  exists c n, Dict.get d c = Some n /\ (0 < n)%Z /\
    forall c' n', Dict.get d c' = Some n' -> (0 < n')%Z -> c' = c.

(** Some choice of [d] holds the sum of all the weights of [d]. *)
Definition holds_whole (d : Dict.dict Choice Z) : Prop :=
  exists c n, Dict.get d c = Some n /\ n = fold_right Z.add 0%Z (Dict.values d).

(** Counts are nonnegative. *)
Definition nonnegative {K : Type} (d : Dict.dict K Z) : Prop :=
  Forall (fun kv => (0 <= snd kv)%Z) d.

(** The tuple [(d[k], -tie_breaker_index(tie_breaker, k), k)]. *)
Definition elimination_tuple (tie_breaker : list Choice) (kv : Choice * Z)
    : Z * Z * Choice :=
  (snd kv, (- Z.of_nat (tie_breaker_index tie_breaker (fst kv)))%Z, fst kv).


(** A text without dash. *)
Fixpoint dash_free (s : string) : bool :=
  match s with
  | EmptyString => true
  | String c rest => negb (Ascii.eqb c "-") && dash_free rest
  end.

(** A rank token, ["<rank>-<candidate>"]. *)
Definition rank_token (tok : string) : Prop :=
  exists rank candidate,
    tok = (rank ++ "-" ++ candidate)%string /\
    dash_free rank = true /\ dash_free candidate = true.

(** The text of a token after its first dash. *)
Fixpoint candidate_part (tok : string) : string :=
  match tok with
  | EmptyString => EmptyString
  | String c rest => if Ascii.eqb c "-" then rest else candidate_part rest
  end.

(** The ballot that a vote of rank tokens stands for: the candidates of
    its tokens, the tokens in the order of strings. *)
Definition adapted_ballot (vote : list string) : Ballot :=
  map candidate_part (sorted String.leb vote).

(** The count of the last vote of [tally] that stands for [s]. *)
Fixpoint last_count (tally : Dict.dict (list string) Z) (s : Ballot)
    : option Z :=
  match tally with
  | [] => None
  | (vote, n) :: rest =>
      match last_count rest s with
      | Some m => Some m
      | None => if eq_dec (adapted_ballot vote) s then Some n else None
      end
  end.

Definition total_weight {K : Type} (t : Dict.dict K Z) : Z :=
  fold_right Z.add 0%Z (Dict.values t).

End Spec.

(** ** The real numbers that floats stand for *)
Module FloatSpec.
Import Rcv.

(** The real value of a finite float, in units of [2^-1074] (every
    finite binary64 float is a whole number of them); [None] for an
    infinity or a NaN. *)
Definition exact (w : PrimFloat.float) : option Z :=
  match FloatOps.Prim2SF w with
  | SpecFloat.S754_zero _ => Some 0%Z
  | SpecFloat.S754_finite s m e =>
      Some ((if s then -1 else 1) * Z.pos m * 2 ^ (e + 1074))%Z
  | _ => None
  end.

(** The exact sum of the weights of [d]. *)
Fixpoint exact_total (d : Dict.dict Choice PrimFloat.float) : option Z :=
  match d with
  | [] => Some 0%Z
  | (_, w) :: rest =>
      match exact w, exact_total rest with
      | Some x, Some s => Some (x + s)%Z
      | _, _ => None
      end
  end.

(** Exactly one choice of [d] has positive weight. *)
Definition sole_positive (d : Dict.dict Choice PrimFloat.float) : Prop :=
  exists c w x, Dict.get d c = Some w /\ exact w = Some x /\ (0 < x)%Z /\
    forall c' w' x', Dict.get d c' = Some w' -> exact w' = Some x' ->
                     (0 < x')%Z -> c' = c.

(** Some choice of [d] holds the exact sum of all the weights of [d]. *)
Definition holds_whole (d : Dict.dict Choice PrimFloat.float) : Prop :=
  exists c w x s, Dict.get d c = Some w /\ exact w = Some x /\
    exact_total d = Some s /\ x = s.
End FloatSpec.

(** ** Further vocabulary, for the functions beside the counting core *)
Module Notions.
Import Rcv.

(** The summed count of the ballots of [t] whose first token is [c]. *)
Definition first_choice_weight (t : Tally) (c : Choice) : Z :=
  fold_right Z.add 0%Z
    (map snd
       (filter (fun kv => match fst kv with
                          | c' :: _ => String.eqb c' c
                          | [] => false
                          end) t)).

(** The summed count of the non-empty ballots of [t]. *)
Definition nonempty_weight (t : Tally) : Z :=
  fold_right Z.add 0%Z
    (map snd (filter (fun kv => match fst kv with [] => false | _ => true end) t)).

(** The approvals of [c]: every vote counts once for each time it names
    [c]. *)
Definition approvals (tally : Dict.dict (list string) Z) (c : string) : Z :=
  fold_right Z.add 0%Z
    (map (fun kv => (snd kv * Z.of_nat (count_occ string_dec (fst kv) c))%Z)
       tally).

(** One vote through the inner loop of [approval]: its count goes to
    each candidate it names. *)
Definition approve (approval_tally : Dict.dict string Z)
    (item : list string * Z) : Dict.dict string Z :=
  fold_left (fun a candidate => Dict.accum a candidate (snd item)) (fst item)
    approval_tally.

(** A vote that [plurality] may return: one selection, not an error one. *)
Definition may_win (is_error_selid : string -> bool) (vote : list string)
    : Prop :=
  exists selid, vote = [selid] /\ is_error_selid selid = false.

(** A token that unpacks into a rank and a candidate. *)
Definition unpacks (tok : string) : Prop :=
  length (Outcomes.split "-" tok) = 2%nat.

(** A choice of [d] whose weight is least. *)
Definition least_weight (d : Dict.dict Choice Z) (c : Choice) : Prop :=
  exists w, Dict.get d c = Some w /\
    forall k wk, Dict.get d k = Some wk -> (w <= wk)%Z.



(** The ballot [b] until the first [name]. *)
Fixpoint until (name : Choice) (b : Ballot) : Ballot :=
  match b with
  | [] => []
  | c :: rest => if String.eqb c name then [] else c :: until name rest
  end.

(** The ballot [b] without any [name]. *)
Definition without (name : Choice) (b : Ballot) : Ballot :=
  filter (fun c => negb (String.eqb c name)) b.
End Notions.

(* ================================================================== *)
(** * The examples of the docstrings *)
(* ================================================================== *)

Module DocExamples.
Import Rcv Outcomes.
Local Open Scope Z_scope.

Example delete_double_undervotes_doc :
  delete_double_undervotes
    [(["undervote"; "undervote"; "a"], 1);
     (["b"; "undervote"; "undervote"; "c"], 1);
     (["d"; "undervote"], 1)]
  = [([], 1); (["b"], 1); (["d"; "undervote"], 1)].
Proof. reflexivity. Qed.

Example delete_undervotes_doc :
  delete_undervotes
    [(["undervote"; "a"], 1); (["undervote"; "undervote"; "b"], 1);
     (["c"; "undervote"], 1)]
  = [(["a"], 1); ([], 1); (["c"], 1)].
Proof. reflexivity. Qed.

Example delete_overvotes_doc :
  delete_overvotes
    [(["a"; "overvote"; "b"], 4); (["c"; "overvote"], 2); (["d"], 1);
     (["overvote"], 1)]
  = [(["a"], 4); (["c"], 2); (["d"], 1); ([], 1)].
Proof. reflexivity. Qed.

Example count_first_choices_doc :
  count_first_choices
    [(["a"; "b"], 1); (["c"], 1); ([], 1); (["d"], 1); (["a"], 1)]
  = [("a", 2); ("c", 1); ("d", 1)].
Proof. reflexivity. Qed.

Example tie_breaker_index_doc :
  tie_breaker_index ["a"; "b"] "a" = 0%nat
  /\ tie_breaker_index ["a"; "b"] "c" = 2%nat.
Proof. split; reflexivity. Qed.

Example rcv_round_doc_1 :
  rcv_round [(["a"; "b"], 1); (["c"; "d"], 1); (["c"; "e"], 1); (["f"; "a"], 1)]
    ["a"; "b"; "c"; "d"; "e"; "f"]
  = inr (Elimination [("a", 1); ("c", 2); ("f", 1)] "f"
           [(["a"; "b"], 1); (["c"; "d"], 1); (["c"; "e"], 1); (["a"], 1)]).
Proof. reflexivity. Qed.

Example rcv_round_doc_2 :
  rcv_round
    [(["a"; "b"], 1); (["c"; "d"], 1); (["c"; "e"], 1); (["f"; "a"], 1);
     (["f"; "b"], 1)]
    ["a"; "b"; "c"; "d"; "e"; "f"]
  = inr (Elimination [("a", 1); ("c", 2); ("f", 2)] "a"
           [(["b"], 1); (["c"; "d"], 1); (["c"; "e"], 1); (["f"], 1);
            (["f"; "b"], 1)]).
Proof. reflexivity. Qed.

Example rcv_round_doc_3 :
  rcv_round [(["a"; "b"], 1); (["a"; "c"], 1)] ["a"; "b"; "c"]
  = inr (Winner "a" [("a", 2)]).
Proof. reflexivity. Qed.

Example rcv_winner_doc :
  rcv_winner_loop 5 0
    (clean [(["a"; "b"], 1); (["b"; "a"], 1); (["b"; "undervote"], 1)])
    ["a"; "b"]
  = Some (2%nat, inr "b").
Proof. reflexivity. Qed.

Example IRV_doc :
  ordered_tally_loop [(["1-a"; "3-b"; "2-c"], 5)] []
  = inr [(["a"; "c"; "b"], 5)].
Proof. reflexivity. Qed.

(** A token without dash, or with more than one, cannot be unpacked. *)
Example adapt_malformed :
  adapt ["a"] = inl ValueError /\ adapt ["1-a-b"] = inl ValueError.
Proof. split; reflexivity. Qed.

End DocExamples.

(* ================================================================== *)
(** * Facts about dictionaries *)
(* ================================================================== *)

Module DictFacts.
Import Dict.

Section Generic.
Context {K V : Type} `{EqDec K}.
Implicit Types (d : dict K V) (k : K) (v : V).

Lemma get_None d k : get d k = None <-> ~ In k (keys d).
Proof.
  induction d as [|[k' v'] r IH]; simpl.
  - tauto.
  - destruct (eq_dec k' k) as [->|Hne].
    + split; [discriminate | intros Hn; exfalso; apply Hn; now left].
    + rewrite IH. split.
      * intros Hn [Heq|Hin]; [now apply Hne | now apply Hn].
      * intros Hn Hin. apply Hn. now right.
Qed.

Lemma get_Some_In d k v : get d k = Some v -> In (k, v) d.
Proof.
  induction d as [|[k' v'] r IH]; simpl; [discriminate|].
  destruct (eq_dec k' k) as [->|Hne].
  - intros [= ->]. now left.
  - intros Hg. right. now apply IH.
Qed.

Lemma get_In_keys d k v : get d k = Some v -> In k (keys d).
Proof.
  intros Hg. apply get_Some_In in Hg.
  unfold keys. apply in_map_iff. now exists (k, v).
Qed.

Lemma In_keys_get d k : In k (keys d) -> exists v, get d k = Some v.
Proof.
  intros Hin. destruct (get d k) as [v|] eqn:E; [now exists v|].
  apply get_None in E. contradiction.
Qed.

Lemma wf_In_get d k v : wf d -> In (k, v) d -> get d k = Some v.
Proof.
  unfold wf. induction d as [|[k' v'] r IH]; simpl; [tauto|].
  intros Hnd [Heq|Hin].
  - injection Heq as -> ->. destruct (eq_dec k k); congruence.
  - inversion Hnd as [|? ? Hnotin Hnd']; subst.
    destruct (eq_dec k' k) as [->|Hne].
    + exfalso. apply Hnotin. unfold keys. apply in_map_iff.
      now exists (k, v).
    + now apply IH.
Qed.

Lemma set_notin d k v : ~ In k (keys d) -> set d k v = d ++ [(k, v)].
Proof.
  induction d as [|[k' v'] r IH]; simpl; [reflexivity|].
  intros Hn. destruct (eq_dec k' k) as [->|Hne].
  - exfalso. apply Hn. now left.
  - f_equal. apply IH. intros Hin. apply Hn. now right.
Qed.

Lemma keys_set_in d k v : In k (keys d) -> keys (set d k v) = keys d.
Proof.
  induction d as [|[k' v'] r IH]; simpl; [tauto|].
  intros Hin. destruct (eq_dec k' k) as [->|Hne]; simpl; [reflexivity|].
  f_equal. apply IH. destruct Hin; [contradiction | assumption].
Qed.

Lemma In_keys_set d k v x :
  In x (keys (set d k v)) <-> In x (keys d) \/ x = k.
Proof.
  destruct (in_dec eq_dec k (keys d)) as [Hin|Hn].
  - rewrite keys_set_in by assumption. split; [tauto|].
    intros [Hx | ->]; assumption.
  - rewrite set_notin by assumption. unfold keys. rewrite map_app, in_app_iff.
    simpl. intuition congruence.
Qed.

Lemma wf_set d k v : wf d -> wf (set d k v).
Proof.
  unfold wf. intros Hwf.
  destruct (in_dec eq_dec k (keys d)) as [Hin|Hn].
  - now rewrite keys_set_in.
  - rewrite set_notin by assumption. unfold keys. rewrite map_app. simpl.
    apply NoDup_rev in Hwf.
    rewrite <- (rev_involutive (map fst d ++ [k])).
    apply NoDup_rev. rewrite rev_app_distr. simpl. constructor.
    + rewrite <- in_rev. exact Hn.
    + exact Hwf.
Qed.

Lemma get_set_same d k v : get (set d k v) k = Some v.
Proof.
  induction d as [|[k' v'] r IH]; simpl.
  - destruct (eq_dec k k); congruence.
  - destruct (eq_dec k' k) as [->|Hne]; simpl.
    + destruct (eq_dec k k); congruence.
    + destruct (eq_dec k' k); congruence.
Qed.

Lemma get_set_other d k v k' : k' <> k -> get (set d k v) k' = get d k'.
Proof.
  intros Hne. induction d as [|[k0 v0] r IH]; simpl.
  - destruct (eq_dec k k'); congruence.
  - destruct (eq_dec k0 k) as [->|Hne0]; simpl.
    + destruct (eq_dec k k'); congruence.
    + destruct (eq_dec k0 k'); congruence.
Qed.

End Generic.

Section Counting.
Context {K : Type} `{EqDec K}.
Implicit Types (d : dict K Z) (k : K) (c : Z).

Lemma accum_nil k c : accum [] k c = [(k, c)].
Proof. reflexivity. Qed.

Lemma accum_cons k' n d k c :
  accum ((k', n) :: d) k c =
  if eq_dec k' k then (k', (n + c)%Z) :: d else (k', n) :: accum d k c.
Proof.
  unfold accum. simpl. destruct (eq_dec k' k); reflexivity.
Qed.

Lemma accum_notin d k c : ~ In k (keys d) -> accum d k c = d ++ [(k, c)].
Proof.
  intros Hn. unfold accum.
  destruct (get d k) eqn:E.
  - apply get_In_keys in E. contradiction.
  - now apply set_notin.
Qed.

Lemma In_keys_accum d k c x :
  In x (keys (accum d k c)) <-> In x (keys d) \/ x = k.
Proof. unfold accum. apply In_keys_set. Qed.

Lemma wf_accum d k c : wf d -> wf (accum d k c).
Proof. unfold accum. apply wf_set. Qed.

Lemma get_accum_same d k c :
  get (accum d k c) k =
  Some (match get d k with Some n => n + c | None => c end)%Z.
Proof. unfold accum. apply get_set_same. Qed.

Lemma get_accum_other d k c k' : k' <> k -> get (accum d k c) k' = get d k'.
Proof. unfold accum. apply get_set_other. Qed.

Lemma accum_accum_same d k c1 c2 :
  accum (accum d k c1) k c2 = accum d k (c1 + c2)%Z.
Proof.
  induction d as [|[k' n] r IH].
  - rewrite !accum_nil, accum_cons. destruct (eq_dec k k); congruence.
  - rewrite !(accum_cons k' n). destruct (eq_dec k' k) as [->|Hne].
    + rewrite accum_cons. destruct (eq_dec k k); [|congruence].
      now rewrite Z.add_assoc.
    + rewrite accum_cons. destruct (eq_dec k' k); [congruence|].
      now rewrite IH.
Qed.

Lemma accum_comm d k1 c1 k2 c2 :
  In k1 (keys d) ->
  accum (accum d k1 c1) k2 c2 = accum (accum d k2 c2) k1 c1.
Proof.
  induction d as [|[k' n] r IH]; simpl; [tauto|].
  intros Hin. rewrite !(accum_cons k' n).
  destruct (eq_dec k' k1) as [E1|Hne1], (eq_dec k' k2) as [E2|Hne2];
    rewrite !accum_cons.
  - subst k1 k2. destruct (eq_dec k' k'); [|congruence].
    f_equal. f_equal. lia.
  - subst k1. destruct (eq_dec k' k2); [congruence|].
    destruct (eq_dec k' k'); congruence.
  - subst k2. destruct (eq_dec k' k'); [|congruence].
    destruct (eq_dec k' k1); congruence.
  - destruct (eq_dec k' k1); [congruence|].
    destruct (eq_dec k' k2); [congruence|].
    f_equal. apply IH. destruct Hin; [contradiction | assumption].
Qed.
End Counting.

End DictFacts.

(* ================================================================== *)
(** * The Ballot Normalizer *)
(* ================================================================== *)

Module NormalizerFacts.
Import Dict DictFacts Rcv Spec.

(** ** Merging ballots *)

Lemma add_ballot_accum (t : Tally) b n : add_ballot t b n = accum t b n.
Proof. reflexivity. Qed.

Lemma delete_name_merge t name df :
  delete_name t name df = merge_by (delete_name_ballot name df) t [].
Proof. reflexivity. Qed.

Lemma delete_double_undervotes_merge t :
  delete_double_undervotes t =
  merge_by (fun b => firstn (find_double_uv b) b) t [].
Proof. reflexivity. Qed.

Lemma merge_by_cons f b n t acc :
  merge_by f ((b, n) :: t) acc = merge_by f t (accum acc (f b) n).
Proof. reflexivity. Qed.

Lemma merge_by_ext f g t acc :
  (forall b, f b = g b) -> merge_by f t acc = merge_by g t acc.
Proof.
  intros Hfg. revert acc.
  induction t as [|[b n] t IH]; intros acc; [reflexivity|].
  rewrite !merge_by_cons, Hfg. apply IH.
Qed.

Lemma merge_by_accum_acc f t acc k c :
  In k (keys acc) ->
  merge_by f t (accum acc k c) = accum (merge_by f t acc) k c.
Proof.
  revert acc. induction t as [|[b n] t IH]; intros acc Hin; [reflexivity|].
  rewrite !merge_by_cons, <- IH.
  - now rewrite accum_comm.
  - apply In_keys_accum. now left.
Qed.

Lemma merge_by_accum g d acc k c :
  merge_by g (accum d k c) acc = accum (merge_by g d acc) (g k) c.
Proof.
  revert acc. induction d as [|[k' n] r IH]; intros acc.
  - reflexivity.
  - rewrite accum_cons. destruct (eq_dec k' k) as [->|Hne].
    + rewrite !merge_by_cons, <- accum_accum_same.
      apply merge_by_accum_acc. apply In_keys_accum. now right.
    + rewrite !merge_by_cons. apply IH.
Qed.

Lemma merge_by_compose f g t acc :
  merge_by g (merge_by f t acc) [] =
  merge_by (fun b => g (f b)) t (merge_by g acc []).
Proof.
  revert acc. induction t as [|[b n] t IH]; intros acc; [reflexivity|].
  rewrite !merge_by_cons, IH. now rewrite merge_by_accum.
Qed.

Lemma merge_by_wf f t acc : wf acc -> wf (merge_by f t acc).
Proof.
  revert acc. induction t as [|[b n] t IH]; intros acc Hwf; [exact Hwf|].
  rewrite merge_by_cons. apply IH. now apply wf_accum.
Qed.

Lemma merge_by_keys f t acc x :
  In x (keys (merge_by f t acc)) <->
  In x (keys acc) \/ exists b, In b (keys t) /\ f b = x.
Proof.
  revert acc. induction t as [|[b n] t IH]; intros acc.
  - simpl. split; [tauto|]. intros [Hin | [b [[] _]]]. exact Hin.
  - rewrite merge_by_cons, IH, In_keys_accum. simpl. split.
    + intros [[Hin | ->] | [b' [Hin Hf]]]; eauto.
    + intros [Hin | [b' [[<- | Hin] Hf]]]; eauto.
Qed.

Lemma merge_by_get f t acc b :
  get (merge_by f t acc) b =
  match filter (fun kv => if eq_dec (f (fst kv)) b then true else false) t with
  | [] => get acc b
  | _ :: _ =>
      Some (match get acc b with Some n => n | None => 0 end
            + summed_count f t b)%Z
  end.
Proof.
  unfold summed_count. revert acc.
  induction t as [|[k n] t IH]; intros acc; [reflexivity|].
  rewrite merge_by_cons, IH. simpl.
  destruct (eq_dec (f k) b) as [<-|Hne].
  - rewrite get_accum_same. simpl.
    destruct (filter _ t); simpl; destruct (get acc (f k)); f_equal; lia.
  - rewrite get_accum_other by congruence. reflexivity.
Qed.

(** A well-formed tally whose ballots [f] leaves alone is left alone. *)
Lemma merge_by_fixed f t acc :
  wf (acc ++ t) -> Forall (fun b => f b = b) (keys t) ->
  merge_by f t acc = acc ++ t.
Proof.
  revert acc. induction t as [|[b n] t IH]; intros acc Hwf Hfix.
  - simpl. now rewrite app_nil_r.
  - inversion Hfix as [|? ? Hb Hfix']; subst. simpl in Hb.
    rewrite merge_by_cons, Hb.
    assert (Hnotin : ~ In b (keys acc)).
    { unfold wf, keys in *. rewrite map_app in Hwf. simpl in Hwf.
      apply NoDup_remove_2 in Hwf. intros Hin. apply Hwf.
      apply in_app_iff. now left. }
    rewrite accum_notin by assumption.
    rewrite IH; [now rewrite <- app_assoc | | assumption].
    now rewrite <- app_assoc.
Qed.

(** ** The three rules, ballot by ballot *)

Lemma delete_name_loop_absent name df b :
  name_in name b = false -> delete_name_loop name df b = b.
Proof.
  unfold name_in. induction b as [|c r IH]; simpl; [reflexivity|].
  intros Hex. apply orb_false_iff in Hex as [Hc Hr].
  rewrite String.eqb_sym, Hc. simpl. now rewrite IH.
Qed.

Lemma delete_name_ballot_loop name df b :
  delete_name_ballot name df b = delete_name_loop name df b.
Proof.
  unfold delete_name_ballot. destruct (name_in name b) eqn:E; [reflexivity|].
  symmetry. now apply delete_name_loop_absent.
Qed.

Lemma delete_overvote_ballot b :
  delete_name_ballot overvote true b = overvote_truncation b.
Proof.
  rewrite delete_name_ballot_loop.
  induction b as [|c r IH]; simpl; [reflexivity|].
  destruct (String.eqb c overvote); simpl; [reflexivity | now rewrite IH].
Qed.

Lemma delete_undervote_ballot b :
  delete_name_ballot undervote false b = single_undervote_removal b.
Proof.
  rewrite delete_name_ballot_loop. unfold single_undervote_removal.
  induction b as [|c r IH]; simpl; [reflexivity|].
  destruct (String.eqb c undervote); simpl; [exact IH | now rewrite IH].
Qed.

Lemma double_at_bound b i : double_at b i = true -> i + 1 < length b.
Proof.
  unfold double_at. intros Hd. apply andb_true_iff in Hd as [_ Hd].
  destruct (Nat.lt_ge_cases (i + 1) (length b)) as [Hlt|Hge]; [exact Hlt|].
  rewrite nth_overflow in Hd by assumption. discriminate.
Qed.

Lemma double_at_cons c b i : double_at (c :: b) (S i) = double_at b i.
Proof. reflexivity. Qed.

Lemma first_double_undervote_spec b :
  match first_double_undervote b with
  | Some i => double_at b i = true /\ forall j, j < i -> double_at b j = false
  | None => forall j, double_at b j = false
  end.
Proof.
  induction b as [|c r IH]; simpl.
  - intros [|j]; reflexivity.
  - destruct r as [|c' r'].
    + intros [|[|j]]; unfold double_at; simpl;
        first [reflexivity | apply andb_false_r].
    + destruct (String.eqb c undervote && String.eqb c' undervote) eqn:E.
      * split; [exact E | intros j Hj; lia].
      * destruct (first_double_undervote (c' :: r')) as [i|]; simpl.
        -- destruct IH as [Hi Hmin]. split; [exact Hi|].
           intros [|j] Hj; [exact E|]. rewrite double_at_cons.
           apply Hmin. lia.
        -- intros [|j]; [exact E|]. rewrite double_at_cons. apply IH.
Qed.

Lemma double_uv_step_at b duv i :
  double_uv_step b duv i =
  if double_at b i && Nat.eqb duv (length b) then i else duv.
Proof. reflexivity. Qed.

(** The scan over [range(j)] stops at the first double undervote. *)
Lemma find_double_uv_scan b j :
  j <= length b - 1 ->
  let r := fold_left (double_uv_step b) (seq 0 j) (length b) in
  (r = length b /\ forall i, i < j -> double_at b i = false) \/
  (r < j /\ double_at b r = true /\ forall i, i < r -> double_at b i = false).
Proof.
  induction j as [|j IH]; intros Hj; cbv zeta.
  - left. split; [reflexivity | intros i Hi; lia].
  - rewrite seq_S, fold_left_app. cbv zeta in IH. simpl.
    destruct IH as [[Hr Hnone] | [Hr [Hd Hmin]]]; [lia | |].
    + rewrite Hr, double_uv_step_at, Nat.eqb_refl, andb_true_r.
      destruct (double_at b j) eqn:E.
      * right. split; [lia|]. split; [exact E | exact Hnone].
      * left. split; [reflexivity|]. intros i Hi.
        destruct (Nat.eq_dec i j) as [->|Hne]; [exact E | apply Hnone; lia].
    + right. rewrite double_uv_step_at.
      replace (Nat.eqb _ (length b)) with false
        by (symmetry; apply Nat.eqb_neq; lia).
      rewrite andb_false_r. split; [lia|]. now split.
Qed.

Lemma double_undervote_ballot b :
  firstn (find_double_uv b) b = double_undervote_truncation b.
Proof.
  unfold double_undervote_truncation, find_double_uv.
  pose proof (first_double_undervote_spec b) as Hspec.
  destruct (find_double_uv_scan b (length b - 1) (Nat.le_refl _))
    as [[Hr Hnone] | [Hr [Hd Hmin]]].
  - rewrite Hr, firstn_all.
    destruct (first_double_undervote b) as [i|]; [|reflexivity].
    destruct Hspec as [Hi _]. pose proof (double_at_bound _ _ Hi).
    rewrite Hnone in Hi by lia. discriminate.
  - set (r := fold_left _ _ _) in *.
    destruct (first_double_undervote b) as [i|].
    + destruct Hspec as [Hi Hmin']. f_equal.
      destruct (Nat.lt_trichotomy r i) as [Hlt | [Heq | Hgt]]; [|exact Heq|].
      * rewrite Hmin' in Hd by assumption. discriminate.
      * rewrite Hmin in Hi by assumption. discriminate.
    + rewrite Hspec in Hd. discriminate.
Qed.

Lemma clean_merge t : clean t = merge_by clean_ballot t [].
Proof.
  unfold clean, delete_overvotes, delete_undervotes.
  rewrite !delete_name_merge, delete_double_undervotes_merge.
  rewrite !merge_by_compose. simpl.
  apply merge_by_ext. intros b. unfold clean_ballot.
  now rewrite delete_undervote_ballot, double_undervote_ballot,
    delete_overvote_ballot.
Qed.

(** ** Cleaned ballots *)

Lemma overvote_truncation_free b : ~ In overvote (overvote_truncation b).
Proof.
  induction b as [|c r IH]; simpl; [tauto|].
  destruct (String.eqb c overvote) eqn:E; simpl; [tauto|].
  apply String.eqb_neq in E. intros [Heq|Hin]; [now apply E | now apply IH].
Qed.

Lemma double_undervote_truncation_incl b x :
  In x (double_undervote_truncation b) -> In x b.
Proof.
  unfold double_undervote_truncation.
  destruct (first_double_undervote b); [|tauto].
  rewrite <- (firstn_skipn n b) at 2. intros Hin. apply in_app_iff. now left.
Qed.

Lemma single_undervote_removal_In b x :
  In x (single_undervote_removal b) <-> In x b /\ x <> undervote.
Proof.
  unfold single_undervote_removal. rewrite filter_In, negb_true_iff.
  now rewrite String.eqb_neq.
Qed.

Lemma clean_ballot_free b :
  ~ In undervote (clean_ballot b) /\ ~ In overvote (clean_ballot b).
Proof.
  unfold clean_ballot. split; intros Hin;
    apply single_undervote_removal_In in Hin as [Hin Hne].
  - now apply Hne.
  - apply double_undervote_truncation_incl in Hin.
    now apply overvote_truncation_free in Hin.
Qed.

Lemma overvote_truncation_fixed b :
  ~ In overvote b -> overvote_truncation b = b.
Proof.
  induction b as [|c r IH]; simpl; [reflexivity|].
  intros Hn. destruct (String.eqb c overvote) eqn:E.
  - apply String.eqb_eq in E. exfalso. apply Hn. now left.
  - f_equal. apply IH. intros Hin. apply Hn. now right.
Qed.

Lemma first_double_undervote_none b :
  ~ In undervote b -> first_double_undervote b = None.
Proof.
  induction b as [|c r IH]; simpl; [reflexivity|].
  intros Hn. destruct r as [|c' r']; [reflexivity|].
  replace (String.eqb c undervote) with false.
  - simpl andb. cbv iota. rewrite IH; [reflexivity|].
    intros Hin. apply Hn. now right.
  - symmetry. apply String.eqb_neq. intros Heq. apply Hn. now left.
Qed.

Lemma single_undervote_removal_fixed b :
  ~ In undervote b -> single_undervote_removal b = b.
Proof.
  unfold single_undervote_removal.
  induction b as [|c r IH]; simpl; [reflexivity|].
  intros Hn. replace (String.eqb c undervote) with false.
  - simpl. rewrite IH; [reflexivity|]. intros Hin. apply Hn. now right.
  - symmetry. apply String.eqb_neq. intros Heq. apply Hn. now left.
Qed.

Lemma clean_ballot_fixed b :
  ~ In undervote b -> ~ In overvote b -> clean_ballot b = b.
Proof.
  intros Hu Ho. unfold clean_ballot, double_undervote_truncation.
  rewrite overvote_truncation_fixed by assumption.
  rewrite first_double_undervote_none by assumption.
  now apply single_undervote_removal_fixed.
Qed.

Lemma clean_ballot_idempotent b : clean_ballot (clean_ballot b) = clean_ballot b.
Proof.
  destruct (clean_ballot_free b). now apply clean_ballot_fixed.
Qed.

Lemma clean_keys t b :
  In b (keys (clean t)) <-> exists raw, In raw (keys t) /\ clean_ballot raw = b.
Proof.
  rewrite clean_merge, merge_by_keys. simpl. tauto.
Qed.

Lemma clean_wf t : wf (clean t).
Proof. rewrite clean_merge. apply merge_by_wf. constructor. Qed.

End NormalizerFacts.

(* ================================================================== *)
(** * Sorting *)
(* ================================================================== *)

Module SortFacts.
Section Sort.
Context {A : Type} (leb : A -> A -> bool).
Hypothesis leb_total : forall x y, leb x y = true \/ leb y x = true.

Lemma insert_perm x l : Permutation (insert leb x l) (x :: l).
Proof.
  induction l as [|y r IH]; simpl; [reflexivity|].
  destruct (leb x y); [reflexivity|].
  rewrite IH. apply perm_swap.
Qed.

Lemma sorted_perm l : Permutation (sorted leb l) l.
Proof.
  induction l as [|x r IH]; simpl; [reflexivity|].
  rewrite insert_perm. now constructor.
Qed.

Lemma insert_HdRel a x l :
  leb_le leb a x ->
  HdRel (leb_le leb) a l -> HdRel (leb_le leb) a (insert leb x l).
Proof.
  intros Hax Hal. destruct l as [|y r]; simpl; [now constructor|].
  destruct (leb x y); constructor; [exact Hax|].
  now inversion Hal.
Qed.

Lemma insert_Sorted x l :
  Sorted (leb_le leb) l -> Sorted (leb_le leb) (insert leb x l).
Proof.
  induction 1 as [|y r Hr IH Hhd]; simpl; [repeat constructor|].
  destruct (leb x y) eqn:E.
  - constructor; [now constructor | now constructor].
  - constructor; [exact IH|]. apply insert_HdRel; [|exact Hhd].
    destruct (leb_total x y) as [Hxy|Hyx]; [congruence | exact Hyx].
Qed.

Lemma sorted_Sorted l : Sorted (leb_le leb) (sorted leb l).
Proof.
  induction l as [|x r IH]; simpl; [constructor | now apply insert_Sorted].
Qed.

Lemma Sorted_weaken (R1 R2 : A -> A -> Prop) l :
  (forall x y, R1 x y -> R2 x y) -> Sorted R1 l -> Sorted R2 l.
Proof.
  intros Hsub HS.
  induction HS as [|y r Hr IH Hhd]; constructor; [exact IH|].
  destruct Hhd; constructor. now apply Hsub.
Qed.

(** The head of the sorted list is least for every transitive relation
    that [leb] refines. *)
Lemma sorted_head_least (R : A -> A -> Prop) l h tl :
  (forall x, R x x) -> Transitive R ->
  (forall x y, leb x y = true -> R x y) ->
  sorted leb l = h :: tl -> forall x, In x l -> R h x.
Proof.
  intros Hrefl Htrans Hsub Hs x Hin.
  assert (HS : Sorted R (h :: tl)).
  { rewrite <- Hs. apply (Sorted_weaken (leb_le leb) R); [exact Hsub|].
    apply sorted_Sorted. }
  apply Sorted_StronglySorted in HS; [|exact Htrans].
  apply StronglySorted_inv in HS as [_ Hall].
  apply (Permutation_in _ (Permutation_sym (sorted_perm l))) in Hin.
  rewrite Hs in Hin. destruct Hin as [<-|Hin]; [apply Hrefl|].
  rewrite Forall_forall in Hall. now apply Hall.
Qed.
End Sort.

(** Python's order on strings. *)
Lemma string_leb_iff a b :
  String.leb a b = true <-> a = b \/ String_as_OT.lt a b.
Proof.
  unfold String.leb. destruct (String.compare a b) eqn:E.
  - apply String_as_OT.cmp_eq in E. tauto.
  - apply String_as_OT.cmp_lt in E. tauto.
  - split; [discriminate|]. intros [->|Hlt].
    + assert (String_as_OT.cmp b b = Eq) by now apply String_as_OT.cmp_eq.
      unfold String_as_OT.cmp in *. congruence.
    + apply String_as_OT.cmp_lt in Hlt. unfold String_as_OT.cmp in *.
      congruence.
Qed.

Lemma string_leb_refl a : String.leb a a = true.
Proof. apply string_leb_iff. now left. Qed.

Lemma string_leb_trans a b c :
  String.leb a b = true -> String.leb b c = true -> String.leb a c = true.
Proof.
  rewrite !string_leb_iff. intros [->|Hab] [->|Hbc]; auto.
  right. eapply String_as_OT.lt_trans; eassumption.
Qed.

End SortFacts.

(* ================================================================== *)
(** * The Round Engine *)
(* ================================================================== *)

Module RoundFacts.
Import Dict DictFacts Rcv Spec SortFacts.
Local Open Scope Z_scope.

(** ** First-choice counts *)

Lemma count_first_choice_cons d c b n :
  count_first_choice d (c :: b, n) = accum d c n.
Proof.
  unfold count_first_choice, accum.
  destruct (get d c); [f_equal; lia | reflexivity].
Qed.

Lemma count_first_choice_nil d n : count_first_choice d ([], n) = d.
Proof. reflexivity. Qed.

Lemma first_choices_keys t acc c :
  In c (keys (fold_left count_first_choice t acc)) <->
  In c (keys acc) \/ exists b n, In (c :: b, n) t.
Proof.
  revert acc. induction t as [|[[|c0 b0] n0] t IH]; intros acc; cbn [fold_left].
  - split; [tauto|]. intros [Hin | [b [n []]]]. exact Hin.
  - rewrite count_first_choice_nil, IH. split.
    + intros [Hin | [b [n Hin]]]; [now left|]. right. exists b, n. now right.
    + intros [Hin | [b [n [Heq|Hin]]]]; [now left | discriminate |].
      right. now exists b, n.
  - rewrite count_first_choice_cons, IH, In_keys_accum. split.
    + intros [[Hin | ->] | [b [n Hin]]]; [now left | |].
      * right. exists b0, n0. now left.
      * right. exists b, n. now right.
    + intros [Hin | [b [n [Heq|Hin]]]]; [now left; left | |].
      * injection Heq as -> -> ->. left. now right.
      * right. now exists b, n.
Qed.

Lemma count_first_choices_keys t c :
  In c (keys (count_first_choices t)) <-> exists b n, In (c :: b, n) t.
Proof.
  unfold count_first_choices. rewrite first_choices_keys. simpl. tauto.
Qed.

Lemma first_choices_wf t acc :
  wf acc -> wf (fold_left count_first_choice t acc).
Proof.
  revert acc. induction t as [|[[|c0 b0] n0] t IH]; intros acc Hwf;
    cbn [fold_left]; [assumption | now apply IH |].
  rewrite count_first_choice_cons. apply IH. now apply wf_accum.
Qed.

Lemma count_first_choices_wf t : wf (count_first_choices t).
Proof. apply first_choices_wf. constructor. Qed.

Lemma accum_nonnegative {K : Type} `{EqDec K} (d : dict K Z) k c :
  nonnegative d -> 0 <= c -> nonnegative (accum d k c).
Proof.
  unfold nonnegative. intros Hd Hc.
  induction d as [|[k' n] r IH].
  - rewrite accum_nil. constructor; [exact Hc | constructor].
  - inversion Hd as [|? ? Hn Hr]; subst. simpl in Hn.
    rewrite accum_cons. destruct (eq_dec k' k).
    + constructor; [simpl; lia | exact Hr].
    + constructor; [exact Hn | now apply IH].
Qed.

Lemma first_choices_nonnegative t acc :
  nonnegative t -> nonnegative acc ->
  nonnegative (fold_left count_first_choice t acc).
Proof.
  revert acc. induction t as [|[[|c0 b0] n0] t IH]; intros acc Ht Hacc;
    cbn [fold_left]; [assumption | |];
    inversion Ht as [|? ? Hn Ht']; subst; simpl in Hn.
  - now apply IH.
  - rewrite count_first_choice_cons. apply IH; [exact Ht'|].
    now apply accum_nonnegative.
Qed.

Lemma count_first_choices_nonnegative t :
  nonnegative t -> nonnegative (count_first_choices t).
Proof. intros Ht. apply first_choices_nonnegative; [exact Ht | constructor]. Qed.

Lemma count_first_choices_nil t :
  count_first_choices t = [] <-> Forall (fun kv => fst kv = []) t.
Proof.
  split.
  - intros Hd. apply Forall_forall. intros [[|c b] n] Hin; [reflexivity|].
    assert (Hc : In c (keys (count_first_choices t)))
      by (apply count_first_choices_keys; now exists b, n).
    rewrite Hd in Hc. destruct Hc.
  - intros Hall. destruct (count_first_choices t) as [|[c v] r] eqn:Hd;
      [reflexivity|].
    assert (Hc : In c (keys (count_first_choices t)))
      by (rewrite Hd; now left).
    apply count_first_choices_keys in Hc as [b [n Hin]].
    rewrite Forall_forall in Hall. apply Hall in Hin. discriminate.
Qed.

(** ** Sums *)

Lemma fold_add_acc l a : fold_left Z.add l a = a + fold_left Z.add l 0.
Proof.
  revert a. induction l as [|x l IH]; intros a; simpl; [lia|].
  rewrite (IH (a + x)), (IH x). lia.
Qed.

Lemma sum_cons x l : sum (x :: l) = x + sum l.
Proof. unfold sum. simpl. apply fold_add_acc. Qed.

Lemma sum_zero l : Forall (fun x => x = 0) l -> sum l = 0.
Proof.
  induction 1 as [|x l Hx Hl IH]; [reflexivity|].
  rewrite sum_cons, IH. lia.
Qed.

(** A weight that leaves only zeros to the others is the whole sum. *)
Lemma sum_sole (d : dict Choice Z) c n :
  wf d -> get d c = Some n ->
  (forall c' n', In (c', n') d -> c' <> c -> n' = 0) ->
  sum (values d) = n.
Proof.
  unfold wf. induction d as [|[k v] r IH]; simpl; [discriminate|].
  intros Hnd Hg Hz. inversion Hnd as [|? ? Hnotin Hnd']; subst.
  rewrite sum_cons. destruct (eq_dec k c) as [->|Hne].
  - injection Hg as ->. rewrite sum_zero; [lia|].
    unfold values. apply Forall_forall. intros x Hx.
    apply in_map_iff in Hx as [[k' v'] [<- Hin]]. simpl.
    apply (Hz k'); [now right|]. intros ->. apply Hnotin.
    unfold keys. apply in_map_iff. now exists (c, v').
  - rewrite (IH Hnd' Hg).
    + rewrite (Hz k v); [lia | now left | exact Hne].
    + intros c' n' Hin. apply Hz. now right.
Qed.

(** ** The tie-break index *)

Lemma name_in_In name l : name_in name l = true <-> In name l.
Proof.
  unfold name_in. rewrite existsb_exists. split.
  - intros [x [Hin Heq]]. apply String.eqb_eq in Heq. now subst.
  - intros Hin. exists name. split; [exact Hin | apply String.eqb_refl].
Qed.





(** ** The order of the elimination tuples *)

Lemma tuple_leb_iff c1 r1 k1 c2 r2 k2 :
  tuple_leb (c1, r1, k1) (c2, r2, k2) = true <->
  c1 < c2 \/ (c1 = c2 /\ (r1 < r2 \/ (r1 = r2 /\ String.leb k1 k2 = true))).
Proof.
  unfold tuple_leb.
  destruct (Z.compare_spec c1 c2); [|intuition lia|intuition (try lia; discriminate)].
  destruct (Z.compare_spec r1 r2); [intuition lia|intuition lia|].
  intuition (try lia; discriminate).
Qed.

Lemma tuple_leb_total x y : tuple_leb x y = true \/ tuple_leb y x = true.
Proof.
  destruct x as [[c1 r1] k1], y as [[c2 r2] k2]. rewrite !tuple_leb_iff.
  destruct (Z.lt_trichotomy c1 c2) as [Hc | [Hc | Hc]];
    [left; now left | subst c2 | right; now left].
  destruct (Z.lt_trichotomy r1 r2) as [Hr | [Hr | Hr]];
    [left; right; split; [reflexivity | now left] | subst r2 |
     right; right; split; [reflexivity | now left]].
  destruct (String.leb_total k1 k2); [left | right];
    right; (split; [reflexivity|]); right; now split.
Qed.

Lemma tuple_leb_refl x : tuple_leb x x = true.
Proof.
  destruct x as [[c r] k]. apply tuple_leb_iff.
  right. split; [reflexivity|]. right. split; [reflexivity|].
  apply string_leb_refl.
Qed.

Lemma tuple_leb_trans x y z :
  tuple_leb x y = true -> tuple_leb y z = true -> tuple_leb x z = true.
Proof.
  destruct x as [[c1 r1] k1], y as [[c2 r2] k2], z as [[c3 r3] k3].
  rewrite !tuple_leb_iff.
  intros [H1 | [H1 [H1' | [H1' L1]]]] [H2 | [H2 [H2' | [H2' L2]]]];
    try lia.
  right. split; [lia|]. right. split; [lia|].
  eapply string_leb_trans; eassumption.
Qed.

(** ** The three ways out of a round *)

Lemma sorted_cons_inv {A : Type} (leb : A -> A -> bool) x l :
  exists h tl, sorted leb (x :: l) = h :: tl.
Proof.
  destruct (sorted leb (x :: l)) as [|h tl] eqn:E; [|now exists h, tl].
  pose proof (sorted_perm leb (x :: l)) as HP. rewrite E in HP.
  apply Permutation_nil in HP. discriminate.
Qed.

Lemma rcv_round_cases t tb :
  let d := count_first_choices t in
  (d = [] /\ rcv_round t tb = inl AssertionError)
  \/ (exists w n, In (w, n) d /\ n = sum (values d) /\
                  rcv_round t tb = inr (Winner w d))
  \/ ((2 <= length d)%nat /\
      (forall c n, In (c, n) d -> n <> sum (values d)) /\
      exists we re e tl,
        sorted tuple_leb (map (elimination_tuple tb) d) = (we, re, e) :: tl /\
        rcv_round t tb = inr (Elimination d e (delete_name t e false))).
Proof.
  unfold rcv_round. cbv zeta.
  destruct (count_first_choices t) as [|[k1 n1] [|[k2 n2] r]] eqn:Hd.
  - left. now split.
  - right. left. exists k1, n1. split; [now left|]. split; [|reflexivity].
    unfold values. simpl. rewrite sum_cons. unfold sum. simpl. lia.
  - right. set (d := (k1, n1) :: (k2, n2) :: r) in *.
    change (Nat.ltb 0 (length d)) with true.
    change (Nat.eqb (length d) 1) with false. cbv iota.
    destruct (find _ d) as [[c n]|] eqn:Hf.
    + left. apply find_some in Hf as [Hin Heq]. simpl in Heq.
      apply Z.eqb_eq in Heq. exists c, n. now repeat split.
    + right. split; [simpl; lia|]. split.
      * intros c n Hin Heq.
        apply (find_none _ _ Hf) in Hin. simpl in Hin.
        apply Z.eqb_neq in Hin. contradiction.
      * change (map _ d) with (map (elimination_tuple tb) d).
        destruct (sorted_cons_inv tuple_leb
                    (elimination_tuple tb (k1, n1))
                    (map (elimination_tuple tb) ((k2, n2) :: r)))
          as [[[we re] e] [tl Hs]].
        change (sorted tuple_leb (map (elimination_tuple tb) d)
                = (we, re, e) :: tl) in Hs.
        rewrite Hs. now exists we, re, e, tl.
Qed.

(** The head of the sorted elimination tuples belongs to a choice of [d]
    and is below the tuple of every choice of [d]. *)
Lemma elimination_head_least (d : dict Choice Z) tb we re e tl :
  wf d ->
  sorted tuple_leb (map (elimination_tuple tb) d) = (we, re, e) :: tl ->
  get d e = Some we /\
  re = - Z.of_nat (tie_breaker_index tb e) /\
  forall k wk, get d k = Some wk ->
    tuple_leb (we, re, e) (elimination_tuple tb (k, wk)) = true.
Proof.
  intros Hwf Hs.
  assert (Hhd : In (we, re, e) (map (elimination_tuple tb) d)).
  { apply (Permutation_in _ (sorted_perm tuple_leb _)).
    rewrite Hs. now left. }
  apply in_map_iff in Hhd as [[k0 n0] [Heq Hin]].
  unfold elimination_tuple in Heq. simpl in Heq.
  injection Heq as -> <- ->.
  split; [now apply wf_In_get|]. split; [reflexivity|].
  intros k wk Hg.
  apply (sorted_head_least tuple_leb tuple_leb_total
           (fun x y => tuple_leb x y = true) _ _ _
           tuple_leb_refl tuple_leb_trans (fun x y Hxy => Hxy) Hs).
  apply in_map. now apply get_Some_In.
Qed.

End RoundFacts.

(* ================================================================== *)
(** * The Winner Driver *)
(* ================================================================== *)

Module DriverFacts.
Import Dict DictFacts Rcv Spec SortFacts NormalizerFacts RoundFacts.

(** ** What a round returns *)

Lemma rcv_round_winner_inv t tb w d :
  rcv_round t tb = inr (Winner w d) ->
  d = count_first_choices t /\ In w (keys d).
Proof.
  intros Hr.
  destruct (rcv_round_cases t tb)
    as [[_ Hr'] | [[w' [n [Hin [_ Hr']]]] | [_ [_ [we [re [e [tl [_ Hr']]]]]]]]];
    rewrite Hr' in Hr; try discriminate.
  injection Hr as <- <-. split; [reflexivity|].
  unfold keys. apply in_map_iff. now exists (w', n).
Qed.

Lemma rcv_round_elimination_inv t tb d e LL :
  rcv_round t tb = inr (Elimination d e LL) ->
  d = count_first_choices t /\ LL = delete_name t e false /\ In e (keys d).
Proof.
  intros Hr.
  destruct (rcv_round_cases t tb)
    as [[_ Hr'] | [[w' [n [Hin [_ Hr']]]] | [_ [_ [we [re [e' [tl [Hs Hr']]]]]]]]];
    rewrite Hr' in Hr; try discriminate.
  injection Hr as <- <- <-. split; [reflexivity|]. split; [reflexivity|].
  destruct (elimination_head_least _ tb we re e' tl
              (count_first_choices_wf t) Hs) as [Hg _].
  now apply get_In_keys in Hg.
Qed.

Lemma rcv_round_error_inv t tb err :
  rcv_round t tb = inl err ->
  err = AssertionError /\ count_first_choices t = [].
Proof.
  intros Hr.
  destruct (rcv_round_cases t tb)
    as [[Hd Hr'] | [[w' [n [Hin [_ Hr']]]] | [_ [_ [we [re [e' [tl [Hs Hr']]]]]]]]];
    rewrite Hr' in Hr; try discriminate.
  injection Hr as <-. now split.
Qed.

(** ** The support of a tally *)

Lemma delete_name_loop_In e b x :
  In x (delete_name_loop e false b) <-> In x b /\ x <> e.
Proof.
  induction b as [|c r IH]; simpl; [tauto|].
  destruct (String.eqb c e) eqn:E; simpl.
  - apply String.eqb_eq in E. subst c. rewrite IH. intuition congruence.
  - apply String.eqb_neq in E. rewrite IH. intuition congruence.
Qed.

Lemma delete_name_ballot_In e b x :
  In x (delete_name_ballot e false b) <-> In x b /\ x <> e.
Proof. rewrite delete_name_ballot_loop. apply delete_name_loop_In. Qed.

Lemma delete_name_keys t e df b' :
  In b' (keys (delete_name t e df)) <->
  exists b, In b (keys t) /\ delete_name_ballot e df b = b'.
Proof. rewrite delete_name_merge, merge_by_keys. simpl. tauto. Qed.

Lemma support_In t c :
  In c (support t) <-> exists b, In b (keys t) /\ In c b.
Proof.
  unfold support. rewrite nodup_In, in_concat. split.
  - intros [b [Hb Hc]]. now exists b.
  - intros [b [Hb Hc]]. now exists b.
Qed.

Lemma support_delete_name t e c :
  In c (support (delete_name t e false)) <-> In c (support t) /\ c <> e.
Proof.
  rewrite !support_In. split.
  - intros [b' [Hb' Hc]]. apply delete_name_keys in Hb' as [b [Hb <-]].
    apply delete_name_ballot_In in Hc as [Hc Hne]. split; [|exact Hne].
    now exists b.
  - intros [[b [Hb Hc]] Hne]. exists (delete_name_ballot e false b). split.
    + apply delete_name_keys. now exists b.
    + apply delete_name_ballot_In. now split.
Qed.

Lemma support_next_tally t e c :
  In c (support (next_tally t e)) <-> In c (support t) /\ c <> e.
Proof.
  unfold next_tally. rewrite !support_delete_name. tauto.
Qed.

Lemma support_NoDup t : NoDup (support t).
Proof. apply NoDup_nodup. Qed.

Lemma support_next_tally_length t e :
  In e (support t) ->
  S (length (support (next_tally t e))) = length (support t).
Proof.
  intros He.
  change (S (length (support (next_tally t e))))
    with (length (e :: support (next_tally t e))).
  apply Permutation_length, NoDup_Permutation.
  - constructor; [|apply support_NoDup].
    intros Hin. apply support_next_tally in Hin as [_ Hne]. now apply Hne.
  - apply support_NoDup.
  - intros c. simpl. rewrite support_next_tally. split.
    + intros [<- | [Hc _]]; assumption.
    + intros Hc. destruct (string_dec e c) as [Heq|Hne]; [now left|].
      right. split; [exact Hc | congruence].
Qed.

Lemma first_choice_in_support t c :
  In c (keys (count_first_choices t)) -> In c (support t).
Proof.
  intros Hc. apply count_first_choices_keys in Hc as [b [n Hin]].
  apply support_In. exists (c :: b). split; [|now left].
  unfold keys. apply in_map_iff. now exists (c :: b, n).
Qed.

(** ** The loop *)

Lemma rcv_winner_loop_terminates fuel rn t tb :
  (length (support t) < fuel)%nat ->
  exists n r,
    rcv_winner_loop fuel rn t tb = Some (n, r)
    /\ (rn < n <= rn + length (support t) + 1)%nat
    /\ (r = inl AssertionError \/ exists w, r = inr w).
Proof.
  revert rn t. induction fuel as [|fuel IH]; intros rn t Hlt; [lia|].
  simpl. destruct (rcv_round t tb) as [err | [w d | d e LL]] eqn:Hr.
  - apply rcv_round_error_inv in Hr as [-> _].
    exists (S rn), (inl AssertionError). split; [reflexivity|].
    split; [lia | now left].
  - exists (S rn), (inr w). split; [reflexivity|]. split; [lia|].
    right. now exists w.
  - apply rcv_round_elimination_inv in Hr as [-> [-> He]].
    apply first_choice_in_support in He.
    pose proof (support_next_tally_length t e He) as Hlen.
    fold (next_tally t e).
    destruct (IH (S rn) (next_tally t e)) as [n [r [Hl [Hn Hres]]]]; [lia|].
    exists n, r. split; [exact Hl|]. split; [lia | exact Hres].
Qed.

Lemma rcv_winner_loop_fuel fuel fuel' rn t tb x :
  rcv_winner_loop fuel rn t tb = Some x -> (fuel <= fuel')%nat ->
  rcv_winner_loop fuel' rn t tb = Some x.
Proof.
  revert fuel' rn t. induction fuel as [|fuel IH]; intros fuel' rn t Hl Hle;
    [discriminate|].
  destruct fuel' as [|fuel']; [lia|]. simpl in *.
  destruct (rcv_round t tb) as [err | [w d | d e LL]]; try exact Hl.
  apply IH; [exact Hl | lia].
Qed.

Lemma rcv_winner_terminates t tb fuel :
  (length (support t) + 1 <= fuel)%nat ->
  exists r, rcv_winner fuel t tb = Some r
            /\ (r = inl AssertionError \/ exists w, r = inr w).
Proof.
  intros Hfuel.
  destruct (rcv_winner_loop_terminates fuel 0 t tb) as [n [r [Hl [_ Hres]]]];
    [lia|].
  exists r. split; [|exact Hres]. unfold rcv_winner. now rewrite Hl.
Qed.

(** ** Sentinel tokens *)

Lemma sentinel_free_next t e : sentinel_free t -> sentinel_free (next_tally t e).
Proof.
  intros Hfree b c Hb Hc. unfold next_tally in Hb.
  apply delete_name_keys in Hb as [b1 [Hb1 <-]].
  apply delete_name_ballot_In in Hc as [Hc _].
  apply delete_name_keys in Hb1 as [b0 [Hb0 <-]].
  apply delete_name_ballot_In in Hc as [Hc _].
  exact (Hfree b0 c Hb0 Hc).
Qed.

Lemma sentinel_free_round t tb w d :
  sentinel_free t -> rcv_round t tb = inr (Winner w d) -> ~ sentinel w.
Proof.
  intros Hfree Hr. apply rcv_round_winner_inv in Hr as [-> Hw].
  apply count_first_choices_keys in Hw as [b [n Hin]].
  apply (Hfree (w :: b) w); [|now left].
  unfold keys. apply in_map_iff. now exists (w :: b, n).
Qed.

Lemma sentinel_free_loop fuel rn t tb n w :
  sentinel_free t -> rcv_winner_loop fuel rn t tb = Some (n, inr w) ->
  ~ sentinel w.
Proof.
  revert rn t. induction fuel as [|fuel IH]; intros rn t Hfree Hl;
    [discriminate|].
  simpl in Hl. destruct (rcv_round t tb) as [err | [w' d | d e LL]] eqn:Hr.
  - discriminate.
  - injection Hl as _ <-. eapply sentinel_free_round; eassumption.
  - apply rcv_round_elimination_inv in Hr as [_ [-> _]].
    apply (IH (S rn) (next_tally t e)); [|exact Hl].
    now apply sentinel_free_next.
Qed.

Lemma clean_sentinel_free t : sentinel_free (clean t).
Proof.
  intros b c Hb Hc [-> | ->]; apply clean_keys in Hb as [raw [_ <-]];
    destruct (clean_ballot_free raw); contradiction.
Qed.

End DriverFacts.

(* ================================================================== *)
(** * Tally and ballot-list conversion *)
(* ================================================================== *)

Module ConversionFacts.
Import Dict DictFacts Rcv Spec.
Local Open Scope Z_scope.

(** The body of the loop of [convert_ballots_to_tally]. *)
Lemma convert_ballots_to_tally_fold (ballots : list Ballot) (acc : Tally) :
  fold_left
    (fun tally ballot =>
       match get tally ballot with
       | Some n => set tally ballot (n + 1)
       | None => set tally ballot 1
       end) ballots acc
  = fold_left (fun tally ballot => accum tally ballot 1) ballots acc.
Proof.
  revert acc. induction ballots as [|b r IH]; intros acc; [reflexivity|].
  simpl. rewrite IH. f_equal. unfold accum. now destruct (get acc b).
Qed.

Lemma accum_last (acc : Tally) b k c :
  ~ In b (keys acc) -> accum (acc ++ [(b, k)]) b c = acc ++ [(b, k + c)].
Proof.
  induction acc as [|[b' n] r IH]; intros Hn.
  - simpl. rewrite accum_cons. destruct (eq_dec b b); congruence.
  - simpl in *. rewrite accum_cons. destruct (eq_dec b' b) as [->|Hne].
    + exfalso. apply Hn. now left.
    + f_equal. apply IH. intros Hin. apply Hn. now right.
Qed.

Lemma count_repeat (acc : Tally) b k m :
  ~ In b (keys acc) ->
  fold_left (fun tally ballot => accum tally ballot 1) (repeat b m)
    (acc ++ [(b, k)])
  = acc ++ [(b, k + Z.of_nat m)].
Proof.
  intros Hn. revert k. induction m as [|m IH]; intros k.
  - simpl. now rewrite Z.add_0_r.
  - cbn [repeat fold_left]. rewrite accum_last by assumption.
    rewrite IH. now replace (k + 1 + Z.of_nat m) with (k + Z.of_nat (S m)) by lia.
Qed.

Lemma collapse_expand (t acc : Tally) :
  wf (acc ++ t) -> Forall (fun kv => 0 < snd kv) t ->
  fold_left (fun tally ballot => accum tally ballot 1)
    (convert_tally_to_ballots t) acc
  = acc ++ t.
Proof.
  revert acc. induction t as [|[b n] t IH]; intros acc Hwf Hpos.
  - simpl. now rewrite app_nil_r.
  - inversion Hpos as [|? ? Hn Hpos']; subst. simpl in Hn.
    assert (Hnotin : ~ In b (keys acc)).
    { unfold wf, keys in *. rewrite map_app in Hwf. simpl in Hwf.
      apply NoDup_remove_2 in Hwf. intros Hin. apply Hwf.
      apply in_app_iff. now left. }
    unfold convert_tally_to_ballots. cbn [flat_map].
    fold (convert_tally_to_ballots t). rewrite fold_left_app.
    destruct (Z.to_nat n) as [|m] eqn:Hm; [lia|].
    cbn [repeat fold_left]. rewrite accum_notin by assumption.
    rewrite count_repeat by assumption.
    replace (1 + Z.of_nat m) with n by lia.
    rewrite IH; [now rewrite <- app_assoc | | assumption].
    now rewrite <- app_assoc.
Qed.

End ConversionFacts.

(* ================================================================== *)
(** * The Rank-Token Adapter *)
(* ================================================================== *)

Module AdapterFacts.
Import Dict DictFacts Rcv Outcomes Spec SortFacts DriverFacts.

Lemma split_dash_free s : dash_free s = true -> split "-" s = [s].
Proof.
  induction s as [|c r IH]; simpl; [reflexivity|].
  intros Hd. apply andb_true_iff in Hd as [Hc Hr].
  apply negb_true_iff in Hc. rewrite Hc, IH by assumption. reflexivity.
Qed.

Lemma split_token rank candidate :
  dash_free rank = true -> dash_free candidate = true ->
  split "-" (rank ++ "-" ++ candidate)%string = [rank; candidate].
Proof.
  intros Hr Hc. induction rank as [|a r IH]; simpl.
  - now rewrite split_dash_free.
  - simpl in Hr. apply andb_true_iff in Hr as [Ha Hr].
    apply negb_true_iff in Ha. rewrite Ha. simpl in IH. now rewrite IH.
Qed.

Lemma candidate_part_token rank candidate :
  dash_free rank = true ->
  candidate_part (rank ++ "-" ++ candidate)%string = candidate.
Proof.
  induction rank as [|a r IH]; simpl; [reflexivity|].
  intros Hr. apply andb_true_iff in Hr as [Ha Hr].
  apply negb_true_iff in Ha. rewrite Ha. now apply IH.
Qed.

Lemma unpack_token rank candidate :
  dash_free rank = true -> dash_free candidate = true ->
  unpack_rank_candidate (rank ++ "-" ++ candidate)%string
  = inr (rank, candidate).
Proof.
  intros Hr Hc. unfold unpack_rank_candidate. now rewrite split_token.
Qed.

Lemma unpack_rank_token tok :
  rank_token tok ->
  exists rank, unpack_rank_candidate tok = inr (rank, candidate_part tok).
Proof.
  intros [rank [candidate [-> [Hr Hc]]]]. exists rank.
  rewrite candidate_part_token by assumption. now apply unpack_token.
Qed.

Lemma ordered_candidates_loop_tokens l acc :
  Forall rank_token l ->
  ordered_candidates_loop l acc = inr (acc ++ map candidate_part l).
Proof.
  intros Hl. revert acc. induction Hl as [|tok l Htok Hl IH]; intros acc; simpl.
  - now rewrite app_nil_r.
  - destruct (unpack_rank_token tok Htok) as [rank ->].
    rewrite IH, <- app_assoc. reflexivity.
Qed.

Lemma adapt_tokens vote :
  Forall rank_token vote ->
  adapt vote = inr (map candidate_part (sorted String.leb vote)).
Proof.
  intros Hv. unfold adapt. rewrite ordered_candidates_loop_tokens.
  - reflexivity.
  - apply (Permutation_Forall (Permutation_sym (sorted_perm String.leb vote))).
    exact Hv.
Qed.

Lemma ordered_tally_loop_app pre rest acc :
  ordered_tally_loop (pre ++ rest) acc =
  match ordered_tally_loop pre acc with
  | inl err => inl err
  | inr acc' => ordered_tally_loop rest acc'
  end.
Proof.
  revert acc. induction pre as [|[vote n] pre IH]; intros acc; simpl;
    [reflexivity|].
  destruct (adapt vote); [reflexivity | apply IH].
Qed.

Lemma ordered_tally_loop_untouched post acc ot s :
  ordered_tally_loop post acc = inr ot ->
  (forall v' n', In (v', n') post -> adapt v' <> inr s) ->
  get ot s = get acc s.
Proof.
  revert acc. induction post as [|[vote n] post IH]; intros acc Hl Hs; simpl in Hl.
  - now injection Hl as <-.
  - destruct (adapt vote) as [err|s'] eqn:Ha; [discriminate|].
    rewrite (IH _ Hl).
    + apply get_set_other. intros ->. apply (Hs vote n); [now left | exact Ha].
    + intros v' n' Hin. apply (Hs v' n'). now right.
Qed.

Lemma ordered_tally_loop_tokens tally acc :
  Forall (fun kv => Forall rank_token (fst kv)) tally ->
  exists ot, ordered_tally_loop tally acc = inr ot.
Proof.
  intros Ht. revert acc.
  induction Ht as [|[vote n] tally Hv Ht IH]; intros acc; simpl.
  - now exists acc.
  - simpl in Hv. rewrite adapt_tokens by assumption. apply IH.
Qed.

Lemma string_leb_StronglySorted l :
  StronglySorted (fun a b => String.leb a b = true) (sorted String.leb l).
Proof.
  apply Sorted_StronglySorted.
  - intros a b c. apply string_leb_trans.
  - apply sorted_Sorted. apply String.leb_total.
Qed.

End AdapterFacts.

(* ================================================================== *)
(** * Properties of the counting core *)
(* ================================================================== *)

Import Dict DictFacts Rcv Outcomes Spec.
Import NormalizerFacts SortFacts RoundFacts DriverFacts ConversionFacts.
Import AdapterFacts.

Local Open Scope Z_scope.

(** C3.  [clean] sends every ballot through overvote truncation, then
    double-undervote truncation, then single-undervote removal
    ([clean_ballot] composes the three in that order): the cleaned tally
    is the merge of the raw one along [clean_ballot], its ballots are
    distinct and are exactly the images of the raw ballots, and the count
    of a cleaned ballot is the sum of the counts of the raw ballots mapped
    to it. *)
Theorem clean_rules_in_order_counts_summed (t : Tally) :
  (forall b, clean_ballot b =
             single_undervote_removal
               (double_undervote_truncation (overvote_truncation b)))
  /\ clean t = merge_by clean_ballot t []
  /\ wf (clean t)
  /\ (forall b, In b (keys (clean t)) <->
                exists raw, In raw (keys t) /\ clean_ballot raw = b)
  /\ (forall b, In b (keys (clean t)) ->
                get (clean t) b = Some (summed_count clean_ballot t b)).
Proof.
  split; [reflexivity|].
  split; [apply clean_merge|]. split; [apply clean_wf|].
  split; [apply clean_keys|].
  intros b Hin. apply clean_keys in Hin as [raw [Hraw <-]].
  rewrite clean_merge, merge_by_get. simpl.
  destruct (filter _ t) eqn:E; [|reflexivity].
  exfalso. unfold keys in Hraw. apply in_map_iff in Hraw as [[k n] [Hk Hin]].
  simpl in Hk. subst k.
  assert (Hf : In (raw, n)
    (filter (fun kv => if eq_dec (clean_ballot (fst kv)) (clean_ballot raw)
                       then true else false) t)).
  { apply filter_In. split; [exact Hin|]. simpl.
    destruct (eq_dec (clean_ballot raw) (clean_ballot raw)); congruence. }
  rewrite E in Hf. exact Hf.
Qed.

(** C6.  [clean] is idempotent. *)
Theorem clean_idempotent (t : Tally) : clean (clean t) = clean t.
Proof.
  rewrite (clean_merge (clean t)).
  apply (merge_by_fixed clean_ballot (clean t) []).
  - apply clean_wf.
  - apply Forall_forall. intros b Hin.
    apply clean_keys in Hin as [raw [_ <-]]. apply clean_ballot_idempotent.
Qed.



(** C4.  A tally whose first-choice mapping is empty (the empty tally,
    and every tally all of whose ballots are empty) makes the round fail
    on its assertion, with no winner, and the winner loop fails with it
    whatever the fuel. *)
Theorem exhausted_ballots_abort :
  count_first_choices [] = []
  /\ (forall t, Forall (fun kv => fst kv = []) t -> count_first_choices t = [])
  /\ (forall t tb, count_first_choices t = [] ->
        rcv_round t tb = inl AssertionError
        /\ (forall w d, rcv_round t tb <> inr (Winner w d))
        /\ (forall fuel, rcv_winner (S fuel) t tb = Some (inl AssertionError))
        /\ (forall fuel w, rcv_winner fuel t tb <> Some (inr w))).
Proof.
  split; [reflexivity|]. split; [intros t; apply count_first_choices_nil|].
  intros t tb Hd.
  assert (Hr : rcv_round t tb = inl AssertionError).
  { unfold rcv_round. rewrite Hd. reflexivity. }
  split; [exact Hr|]. split; [|split].
  - intros w d. rewrite Hr. discriminate.
  - intros fuel. unfold rcv_winner. simpl. now rewrite Hr.
  - intros [|fuel] w; unfold rcv_winner; simpl; [discriminate|].
    rewrite Hr. discriminate.
Qed.

Lemma exhausted_ballots_abort_witness :
  rcv_round [([], 3)] ["a"] = inl AssertionError
  /\ rcv_winner 5 [] [] = Some (inl AssertionError).
Proof.
  destruct exhausted_ballots_abort as [Hnil [Hblank Hfail]].
  split.
  - apply (Hfail [([], 3)] ["a"]).
    apply Hblank. repeat constructor.
  - apply (Hfail [] [] Hnil).
Defined.

(** C5, as the code has it.  The round does not look at the tokens: on a
    tally that was not cleaned a sentinel token can win. *)
Lemma round_winner_sentinel_counterexample :
  rcv_round [(["undervote"], 1)] [] = inr (Winner undervote [(undervote, 1)])
  /\ ~ (forall t tb w d, rcv_round t tb = inr (Winner w d) -> ~ sentinel w).
Proof.
  split; [reflexivity|]. intros Hall.
  apply (Hall [(["undervote"], 1)] [] undervote [(undervote, 1)]);
    [reflexivity | now left].
Qed.

(** C5, amended.  On a tally none of whose ballots carries a sentinel
    token, as [clean] returns them, a winner of the round, and a winner of
    the winner loop, is never [undervote] or [overvote]. *)
Theorem sentinel_free_winner_not_sentinel (t : Tally) (tb : list Choice) :
  sentinel_free t ->
  (forall w d, rcv_round t tb = inr (Winner w d) -> ~ sentinel w)
  /\ (forall fuel w, rcv_winner fuel t tb = Some (inr w) -> ~ sentinel w).
Proof.
  intros Hfree. split.
  - intros w d. now apply sentinel_free_round.
  - intros fuel w Hw. unfold rcv_winner in Hw.
    destruct (rcv_winner_loop fuel 0 t tb) as [[n r]|] eqn:Hl; [|discriminate].
    simpl in Hw. injection Hw as ->.
    eapply sentinel_free_loop; eassumption.
Qed.

Lemma sentinel_free_winner_not_sentinel_witness :
  ~ sentinel "b"
  /\ rcv_winner 3 (clean [(["a"; "b"], 1); (["b"; "a"], 1); (["b"; "undervote"], 1)])
       ["a"; "b"] = Some (inr "b").
Proof.
  split; [|reflexivity].
  apply (sentinel_free_winner_not_sentinel
           (clean [(["a"; "b"], 1); (["b"; "a"], 1); (["b"; "undervote"], 1)])
           ["a"; "b"] (clean_sentinel_free _)) with (fuel := 3%nat).
  reflexivity.
Defined.

(** C7, as the code has it.  A ballot with count zero leaves no copy in
    the ballot list, so it is missing from the collapsed tally. *)
Lemma collapse_expand_zero_count_counterexample :
  wf [(["a"], 0)]
  /\ nonnegative [(["a"], 0)]
  /\ convert_tally_to_ballots [(["a"], 0)] = []
  /\ convert_ballots_to_tally (convert_tally_to_ballots [(["a"], 0)]) = []
  /\ convert_ballots_to_tally (convert_tally_to_ballots [(["a"], 0)])
     <> [(["a"], 0)].
Proof.
  split; [repeat constructor; simpl; tauto|].
  split; [repeat constructor; simpl; lia|].
  split; [reflexivity|]. split; [reflexivity|]. discriminate.
Qed.

(** C7, amended.  For a tally with distinct ballots and strictly positive
    integer counts, collapsing its expansion gives the tally back, in the
    same order. *)
Theorem collapse_expand_positive (t : Tally) :
  wf t -> Forall (fun kv => 0 < snd kv) t ->
  convert_ballots_to_tally (convert_tally_to_ballots t) = t.
Proof.
  intros Hwf Hpos. unfold convert_ballots_to_tally.
  rewrite convert_ballots_to_tally_fold.
  now apply (collapse_expand t []).
Qed.

Lemma collapse_expand_positive_witness :
  convert_ballots_to_tally
    (convert_tally_to_ballots [(["a"; "b"], 2); ([], 3); (["b"], 1)])
  = [(["a"; "b"], 2); ([], 3); (["b"], 1)].
Proof.
  apply collapse_expand_positive.
  - unfold wf. simpl. repeat constructor; simpl; intuition discriminate.
  - repeat constructor; simpl; lia.
Defined.

(** C9.  A round that eliminates [e] takes [e], and nothing else, out of
    the support of the tally, so the next tally has exactly one distinct
    choice less; the winner loop therefore stops, with a winner or with the
    failed assertion, after at most one round more than there are distinct
    choices in the tally, whatever fuel beyond that it is given. *)
Theorem elimination_shrinks_support_loop_terminates
    (t : Tally) (tb : list Choice) :
  (forall d e LL, rcv_round t tb = inr (Elimination d e LL) ->
     In e (support t)
     /\ (forall c, In c (support (delete_name LL e false)) <->
                   In c (support t) /\ c <> e)
     /\ S (length (support (delete_name LL e false))) = length (support t))
  /\ exists n r,
       (1 <= n <= length (support t) + 1)%nat
       /\ (r = inl AssertionError \/ exists w, r = inr w)
       /\ forall fuel, (length (support t) + 1 <= fuel)%nat ->
            rcv_winner_loop fuel 0 t tb = Some (n, r)
            /\ rcv_winner fuel t tb = Some r.
Proof.
  split.
  - intros d e LL Hr. apply rcv_round_elimination_inv in Hr as [-> [-> He]].
    apply first_choice_in_support in He. fold (next_tally t e).
    split; [exact He|]. split; [apply support_next_tally|].
    now apply support_next_tally_length.
  - destruct (rcv_winner_loop_terminates (length (support t) + 1) 0 t tb)
      as [n [r [Hl [Hn Hres]]]]; [lia|].
    exists n, r. split; [lia|]. split; [exact Hres|].
    intros fuel Hfuel.
    pose proof (rcv_winner_loop_fuel _ fuel _ _ _ _ Hl Hfuel) as Hl'.
    split; [exact Hl'|]. unfold rcv_winner. now rewrite Hl'.
Qed.

Lemma elimination_shrinks_support_loop_terminates_witness :
  exists n r,
    rcv_winner_loop 7 0
      [(["a"; "b"], 1); (["c"; "d"], 1); (["c"; "e"], 1); (["f"; "a"], 1)]
      ["a"; "b"; "c"; "d"; "e"; "f"] = Some (n, r)
    /\ (n <= 7)%nat.
Proof.
  destruct (elimination_shrinks_support_loop_terminates
              [(["a"; "b"], 1); (["c"; "d"], 1); (["c"; "e"], 1); (["f"; "a"], 1)]
              ["a"; "b"; "c"; "d"; "e"; "f"])
    as [_ [n [r [Hn [_ Hfuel]]]]].
  exists n, r. split.
  - apply (Hfuel 7%nat). vm_compute. lia.
  - vm_compute in Hn. lia.
Defined.

(** C10.  The adapter assigns, it does not add: when several ballots of
    the input tally adapt to the same candidate sequence, the adapted
    tally holds for that sequence the count of the last of them in the
    enumeration, not a sum with the count of an earlier one.  So the
    weight handed to the round engine can be strictly less than the
    weight of the input tally, as for the same ranking written with padded
    and with unpadded ranks. *)
Theorem adapter_keeps_last_count :
  (forall pre vote n post ordered_tally s,
     ordered_tally_loop (pre ++ (vote, n) :: post) [] = inr ordered_tally ->
     adapt vote = inr s ->
     (forall v' n', In (v', n') post -> adapt v' <> inr s) ->
     get ordered_tally s = Some n
     /\ (forall v1 n1, In (v1, n1) pre -> adapt v1 = inr s -> n1 <> 0 ->
           get ordered_tally s <> Some (n1 + n)))
  /\ (wf [(["1-a"; "2-b"], 3); (["01-a"; "02-b"], 2)]
      /\ ordered_tally_loop [(["1-a"; "2-b"], 3); (["01-a"; "02-b"], 2)] []
         = inr [(["a"; "b"], 2)]
      /\ total_weight [(["a"; "b"], 2)]
         < total_weight [(["1-a"; "2-b"], 3); (["01-a"; "02-b"], 2)]).
Proof.
  split.
  - intros pre vote n post ot s Hl Ha Hpost.
    assert (Hg : get ot s = Some n).
    { rewrite ordered_tally_loop_app in Hl.
      destruct (ordered_tally_loop pre []) as [err|acc]; [discriminate|].
      simpl in Hl. rewrite Ha in Hl.
      rewrite (ordered_tally_loop_untouched _ _ _ s Hl Hpost).
      apply get_set_same. }
    split; [exact Hg|]. intros v1 n1 _ _ Hn1. rewrite Hg. intros [= Heq]. lia.
  - split; [|split].
    + unfold wf. simpl. repeat constructor; simpl; intuition discriminate.
    + reflexivity.
    + reflexivity.
Qed.

Lemma adapter_keeps_last_count_witness :
  get [(["a"; "b"], 2)] ["a"; "b"] = Some 2.
Proof.
  destruct adapter_keeps_last_count as [Hlast _].
  apply (Hlast [(["1-a"; "2-b"], 3)] ["01-a"; "02-b"] 2 []
           [(["a"; "b"], 2)] ["a"; "b"]).
  - reflexivity.
  - reflexivity.
  - intros v' n' [].
Defined.

(* ================================================================== *)
(** * Further properties of rcv.py and outcomes.py *)
(* ================================================================== *)

Module MergeFacts.
Import Dict DictFacts Rcv Spec Notions NormalizerFacts DriverFacts.
Local Open Scope Z_scope.

Lemma total_weight_accum {K : Type} `{EqDec K} (d : dict K Z) k c :
  total_weight (accum d k c) = total_weight d + c.
Proof.
  unfold total_weight, values.
  induction d as [|[k' n] r IH].
  - rewrite accum_nil. simpl. lia.
  - rewrite accum_cons. destruct (eq_dec k' k); simpl in *; [lia|].
    rewrite IH. lia.
Qed.

Lemma total_weight_merge_by f t acc :
  total_weight (merge_by f t acc) = total_weight acc + total_weight t.
Proof.
  revert acc. induction t as [|[b n] t IH]; intros acc.
  - unfold total_weight at 3. simpl. lia.
  - rewrite merge_by_cons, IH, total_weight_accum.
    unfold total_weight, values. simpl. lia.
Qed.

(** The count of a ballot of a merged tally. *)
Lemma merge_by_summed f t b :
  In b (keys (merge_by f t [])) ->
  get (merge_by f t []) b = Some (summed_count f t b).
Proof.
  intros Hin. apply merge_by_keys in Hin as [[] | [raw [Hraw <-]]].
  rewrite merge_by_get. simpl.
  destruct (filter _ t) eqn:E; [|reflexivity].
  exfalso. unfold keys in Hraw. apply in_map_iff in Hraw as [[k n] [Hk Hin]].
  simpl in Hk. subst k.
  assert (Hf : In (raw, n)
    (filter (fun kv => if eq_dec (f (fst kv)) (f raw) then true else false) t)).
  { apply filter_In. split; [exact Hin|]. simpl.
    destruct (eq_dec (f raw) (f raw)); congruence. }
  rewrite E in Hf. exact Hf.
Qed.

Lemma delete_name_loop_free name df b : ~ In name (delete_name_loop name df b).
Proof.
  induction b as [|c r IH]; simpl; [tauto|].
  destruct (String.eqb c name) eqn:E; simpl.
  - destruct df; [tauto | exact IH].
  - apply String.eqb_neq in E. intros [Heq|Hin]; [now apply E | now apply IH].
Qed.

Lemma delete_name_ballot_until name b :
  delete_name_ballot name true b = until name b.
Proof.
  rewrite delete_name_ballot_loop.
  induction b as [|c r IH]; simpl; [reflexivity|].
  destruct (String.eqb c name); simpl; [reflexivity | now rewrite IH].
Qed.

Lemma delete_name_ballot_without name b :
  delete_name_ballot name false b = without name b.
Proof.
  rewrite delete_name_ballot_loop. unfold without.
  induction b as [|c r IH]; simpl; [reflexivity|].
  destruct (String.eqb c name); simpl; [exact IH | now rewrite IH].
Qed.

Lemma delete_name_ballot_absent name df b :
  ~ In name b -> delete_name_ballot name df b = b.
Proof.
  intros Hn. unfold delete_name_ballot.
  destruct (name_in name b) eqn:E; [|reflexivity].
  apply RoundFacts.name_in_In in E. contradiction.
Qed.


Lemma delete_name_wf t name df : wf (delete_name t name df).
Proof. rewrite delete_name_merge. apply merge_by_wf. constructor. Qed.

Lemma delete_name_free t name df b :
  In b (keys (delete_name t name df)) -> ~ In name b.
Proof.
  intros Hin. apply delete_name_keys in Hin as [b0 [_ <-]].
  rewrite delete_name_ballot_loop. apply delete_name_loop_free.
Qed.

Lemma delete_name_fixed t name df :
  wf t -> (forall b, In b (keys t) -> ~ In name b) ->
  delete_name t name df = t.
Proof.
  intros Hwf Hfree. rewrite delete_name_merge.
  apply (merge_by_fixed _ t []); [exact Hwf|].
  apply Forall_forall. intros b Hb.
  apply delete_name_ballot_absent. now apply Hfree.
Qed.

End MergeFacts.

Import MergeFacts Notions.

(** X1.  [delete_name] leaves no occurrence of [name], with either
    value of [delete_following], and the ballots of its result are
    distinct. *)
Theorem delete_name_leaves_no_occurrence
    (t : Tally) (name : Choice) (df : bool) :
  wf (delete_name t name df)
  /\ forall b, In b (keys (delete_name t name df)) -> ~ In name b.
Proof.
  split; [apply delete_name_wf | intros b; apply delete_name_free].
Qed.

(** X2.  On a tally of integer counts none of [delete_name],
    [delete_double_undervotes], [delete_undervotes], [delete_overvotes] and
    [clean] changes the total weight: ballots meet, their counts are added,
    and integer addition is exact. *)
Theorem normalisation_keeps_total_weight (t : Tally) :
  (forall name df, total_weight (delete_name t name df) = total_weight t)
  /\ total_weight (delete_double_undervotes t) = total_weight t
  /\ total_weight (delete_undervotes t) = total_weight t
  /\ total_weight (delete_overvotes t) = total_weight t
  /\ total_weight (clean t) = total_weight t.
Proof.
  assert (Hm : forall f u, total_weight (merge_by f u []) = total_weight u).
  { intros f u. rewrite total_weight_merge_by. reflexivity. }
  split; [intros name df; rewrite delete_name_merge; apply Hm|].
  split; [rewrite delete_double_undervotes_merge; apply Hm|].
  split.
  { unfold delete_undervotes.
    rewrite delete_name_merge, Hm, delete_double_undervotes_merge. apply Hm. }
  split; [unfold delete_overvotes; rewrite delete_name_merge; apply Hm|].
  rewrite clean_merge. apply Hm.
Qed.

(** X3.  The ballots of [delete_name(tally, name, delete_following)] are
    the ballots of [tally] cut before the first [name] when
    [delete_following] holds, and with every [name] taken out, the order
    of the other tokens kept, when it does not; the count of a resulting
    ballot is the sum of the counts of the ballots that become it. *)
Theorem delete_name_cuts_or_filters (t : Tally) (name : Choice) (df : bool) :
  let f := if df then until name else without name in
  (forall b', In b' (keys (delete_name t name df)) <->
              exists b, In b (keys t) /\ f b = b')
  /\ (forall b', In b' (keys (delete_name t name df)) ->
        get (delete_name t name df) b' = Some (summed_count f t b')).
Proof.
  intros f.
  assert (Hf : delete_name t name df = merge_by f t []).
  { rewrite delete_name_merge. apply merge_by_ext. intros b. subst f.
    destruct df; [apply delete_name_ballot_until
                 | apply delete_name_ballot_without]. }
  rewrite Hf. split.
  - intros b'. rewrite merge_by_keys. simpl. tauto.
  - intros b'. apply merge_by_summed.
Qed.

Lemma delete_name_cuts_or_filters_witness :
  get (delete_name [(["a"; "x"; "b"], 2); (["a"; "b"], 3)] "x" false) ["a"; "b"]
  = Some 5.
Proof.
  destruct (delete_name_cuts_or_filters
              [(["a"; "x"; "b"], 2); (["a"; "b"], 3)] "x" false) as [_ Hget].
  rewrite (Hget ["a"; "b"]); [reflexivity|].
  vm_compute. now left.
Defined.



(** X5.  [delete_name] is idempotent.  So the second [delete_name(LL, e)]
    of [rcv_winner] changes nothing: the tally of the next round is the
    [LL] that [rcv_round] returned. *)
Theorem delete_name_idempotent_refilter_noop (t : Tally) :
  (forall name df,
     delete_name (delete_name t name df) name df = delete_name t name df)
  /\ (forall tb d e LL,
        rcv_round t tb = inr (Elimination d e LL) ->
        delete_name LL e false = LL).
Proof.
  assert (Hidem : forall name df,
    delete_name (delete_name t name df) name df = delete_name t name df).
  { intros name df. apply delete_name_fixed; [apply delete_name_wf|].
    intros b. apply delete_name_free. }
  split; [exact Hidem|].
  intros tb d e LL Hr. apply rcv_round_elimination_inv in Hr as [_ [-> _]].
  apply Hidem.
Qed.

Lemma delete_name_idempotent_refilter_noop_witness :
  delete_name
    [(["a"; "b"], 1); (["c"; "d"], 1); (["c"; "e"], 1); (["a"], 1)] "f" false
  = [(["a"; "b"], 1); (["c"; "d"], 1); (["c"; "e"], 1); (["a"], 1)].
Proof.
  destruct (delete_name_idempotent_refilter_noop
              [(["a"; "b"], 1); (["c"; "d"], 1); (["c"; "e"], 1); (["f"; "a"], 1)])
    as [_ Hnoop].
  apply (Hnoop ["a"; "b"; "c"; "d"; "e"; "f"] [("a", 1); ("c", 2); ("f", 1)]).
  reflexivity.
Defined.

(** X6.  No ballot of [clean(tally)] carries [undervote] or [overvote],
    and every one of them is what is left of a raw ballot: its tokens are
    tokens of that ballot. *)
Theorem clean_leaves_no_sentinel (t : Tally) (b : Ballot) :
  In b (keys (clean t)) ->
  ~ In undervote b /\ ~ In overvote b
  /\ exists raw, In raw (keys t) /\ incl b raw.
Proof.
  intros Hb. apply clean_keys in Hb as [raw [Hraw <-]].
  destruct (clean_ballot_free raw) as [Hu Ho].
  split; [exact Hu|]. split; [exact Ho|].
  exists raw. split; [exact Hraw|]. intros c Hc. unfold clean_ballot in Hc.
  apply single_undervote_removal_In in Hc as [Hc _].
  apply double_undervote_truncation_incl in Hc.
  clear - Hc. induction raw as [|x r IH]; simpl in *; [exact Hc|].
  destruct (String.eqb x overvote); [destruct Hc|].
  destruct Hc as [->|Hc]; [now left | right; now apply IH].
Qed.

Lemma clean_leaves_no_sentinel_witness :
  ~ In undervote ["b"] /\ ~ In overvote ["b"]
  /\ exists raw,
       In raw (keys [(["undervote"; "undervote"; "a"], 1);
                     (["b"; "undervote"; "undervote"; "c"], 1);
                     (["d"; "undervote"], 1)])
       /\ incl ["b"] raw.
Proof.
  apply (clean_leaves_no_sentinel
           [(["undervote"; "undervote"; "a"], 1);
            (["b"; "undervote"; "undervote"; "c"], 1);
            (["d"; "undervote"], 1)] ["b"]).
  vm_compute. right. now left.
Defined.

Module MoreRoundFacts.
Import Dict DictFacts Rcv Spec Notions NormalizerFacts SortFacts RoundFacts.
Import DriverFacts.
Local Open Scope Z_scope.

(** ** Double undervotes *)

Lemma double_undervote_truncation_no_double b i :
  double_at (double_undervote_truncation b) i = false.
Proof.
  unfold double_undervote_truncation.
  pose proof (first_double_undervote_spec b) as Hspec.
  destruct (first_double_undervote b) as [k|]; [|apply Hspec].
  destruct Hspec as [_ Hmin]. unfold double_at. rewrite !nth_firstn.
  destruct (Nat.ltb (i + 1) k) eqn:E.
  - apply Nat.ltb_lt in E.
    replace (Nat.ltb i k) with true by (symmetry; apply Nat.ltb_lt; lia).
    apply Hmin. lia.
  - simpl. apply andb_false_r.
Qed.

Lemma double_undervote_truncation_prefix b :
  exists rest, b = double_undervote_truncation b ++ rest.
Proof.
  unfold double_undervote_truncation.
  destruct (first_double_undervote b) as [k|].
  - exists (skipn k b). now rewrite firstn_skipn.
  - exists []. now rewrite app_nil_r.
Qed.

Lemma double_undervote_truncation_fixed b :
  (forall i, double_at b i = false) -> double_undervote_truncation b = b.
Proof.
  intros Hno. unfold double_undervote_truncation.
  pose proof (first_double_undervote_spec b) as Hspec.
  destruct (first_double_undervote b) as [k|]; [|reflexivity].
  destruct Hspec as [Hk _]. rewrite Hno in Hk. discriminate.
Qed.

Lemma delete_double_undervotes_keys t b' :
  In b' (keys (delete_double_undervotes t)) <->
  exists b, In b (keys t) /\ double_undervote_truncation b = b'.
Proof.
  rewrite delete_double_undervotes_merge, merge_by_keys. simpl. split.
  - intros [[] | [b [Hb <-]]]. exists b. split; [exact Hb|].
    symmetry. apply double_undervote_ballot.
  - intros [b [Hb <-]]. right. exists b. split; [exact Hb|].
    apply double_undervote_ballot.
Qed.

(** ** First-choice counts *)

Lemma first_choices_get t acc c :
  get (fold_left count_first_choice t acc) c =
  match filter (fun kv => match fst kv with
                          | c' :: _ => String.eqb c' c
                          | [] => false
                          end) t with
  | [] => get acc c
  | _ :: _ =>
      Some (match get acc c with Some n => n | None => 0 end
            + first_choice_weight t c)
  end.
Proof.
  unfold first_choice_weight. revert acc.
  induction t as [|[[|c0 b0] n0] t IH]; intros acc; cbn [fold_left].
  - reflexivity.
  - rewrite count_first_choice_nil, IH. reflexivity.
  - rewrite count_first_choice_cons, IH. simpl.
    destruct (String.eqb c0 c) eqn:E.
    + apply String.eqb_eq in E. subst c0. rewrite get_accum_same. simpl.
      match goal with
      | |- context [filter ?p t] => destruct (filter p t)
      end; simpl; destruct (get acc c); f_equal; lia.
    + apply String.eqb_neq in E. rewrite get_accum_other by congruence.
      reflexivity.
Qed.

Lemma sum_fold_right l : sum l = fold_right Z.add 0 l.
Proof.
  induction l as [|x l IH]; [reflexivity|]. rewrite sum_cons, IH. reflexivity.
Qed.

Lemma first_choices_total t acc :
  total_weight (fold_left count_first_choice t acc) =
  total_weight acc + nonempty_weight t.
Proof.
  unfold nonempty_weight. revert acc.
  induction t as [|[[|c0 b0] n0] t IH]; intros acc; cbn [fold_left].
  - simpl. lia.
  - rewrite count_first_choice_nil, IH. reflexivity.
  - rewrite count_first_choice_cons, IH, MergeFacts.total_weight_accum.
    simpl. lia.
Qed.

(** ** Sums of nonnegative weights *)

Lemma sum_ge_one (d : dict Choice Z) c n :
  nonnegative d -> get d c = Some n -> n <= sum (values d).
Proof.
  unfold nonnegative. induction d as [|[k v] r IH]; simpl; [discriminate|].
  intros Hnn Hg. inversion Hnn as [|? ? Hv Hr]; subst. simpl in Hv.
  rewrite sum_cons. destruct (eq_dec k c).
  - injection Hg as ->.
    assert (0 <= sum (values r)).
    { clear - Hr. induction Hr as [|[k' v'] r' Hv' Hr' IH'].
      - reflexivity.
      - unfold values in *. simpl in *. rewrite sum_cons. lia. }
    lia.
  - specialize (IH Hr Hg). lia.
Qed.

Lemma sum_ge_two (d : dict Choice Z) c1 n1 c2 n2 :
  nonnegative d -> get d c1 = Some n1 -> get d c2 = Some n2 -> c1 <> c2 ->
  n1 + n2 <= sum (values d).
Proof.
  unfold nonnegative. induction d as [|[k v] r IH]; simpl; [discriminate|].
  intros Hnn Hg1 Hg2 Hne. inversion Hnn as [|? ? Hv Hr]; subst. simpl in Hv.
  rewrite sum_cons. destruct (eq_dec k c1), (eq_dec k c2).
  - congruence.
  - injection Hg1 as ->. pose proof (sum_ge_one r c2 n2 Hr Hg2). lia.
  - injection Hg2 as ->. pose proof (sum_ge_one r c1 n1 Hr Hg1). lia.
  - specialize (IH Hr Hg1 Hg2 Hne). lia.
Qed.

(** ** The winner does not depend on the tie-break order *)

Lemma rcv_round_winner_any_order t tb1 tb2 w d :
  rcv_round t tb1 = inr (Winner w d) -> rcv_round t tb2 = inr (Winner w d).
Proof.
  unfold rcv_round. cbv zeta.
  destruct (Nat.ltb 0 (length (count_first_choices t))); [|discriminate].
  destruct (Nat.eqb (length (count_first_choices t)) 1); [tauto|].
  destruct (find _ (count_first_choices t)) as [[c n]|]; [tauto|].
  destruct (sorted _ _) as [|[[? ?] ?] ?]; discriminate.
Qed.

(** ** After an elimination some first choice is left *)

Lemma other_first_choice (d : dict Choice Z) e :
  wf d -> (2 <= length d)%nat -> exists k, In k (keys d) /\ k <> e.
Proof.
  intros Hwf Hlen. destruct d as [|[k1 n1] [|[k2 n2] r]]; simpl in Hlen;
    try lia.
  unfold wf in Hwf. simpl in Hwf.
  inversion Hwf as [|? ? Hnotin _]; subst.
  destruct (string_dec k1 e) as [->|Hne].
  - exists k2. split; [simpl; tauto|]. intros ->. apply Hnotin. now left.
  - exists k1. split; [now left | exact Hne].
Qed.

Lemma delete_name_keeps_first_choice t e k :
  In k (keys (count_first_choices t)) -> k <> e ->
  In k (keys (count_first_choices (delete_name t e false))).
Proof.
  intros Hk Hne. apply count_first_choices_keys in Hk as [b [n Hin]].
  assert (Hb : In (delete_name_ballot e false (k :: b))
                 (keys (delete_name t e false))).
  { apply delete_name_keys. exists (k :: b). split; [|reflexivity].
    unfold keys. apply in_map_iff. now exists (k :: b, n). }
  rewrite MergeFacts.delete_name_ballot_without in Hb.
  unfold without in Hb. simpl in Hb.
  replace (String.eqb k e) with false in Hb
    by (symmetry; now apply String.eqb_neq).
  simpl in Hb. unfold keys in Hb. apply in_map_iff in Hb as [[b' n'] [Heq Hin']].
  simpl in Heq. subst b'. apply count_first_choices_keys. eauto.
Qed.

Lemma rcv_winner_loop_winner fuel rn t tb :
  count_first_choices t <> [] ->
  (length (support t) < fuel)%nat ->
  exists n w, rcv_winner_loop fuel rn t tb = Some (n, inr w)
              /\ In w (support t).
Proof.
  revert rn t. induction fuel as [|fuel IH]; intros rn t Hne Hlt; [lia|].
  simpl.
  destruct (rcv_round_cases t tb)
    as [[Hd _] | [[w [n [Hin [_ Hr]]]] | [Hlen [_ [we [re [e [tl [Hs Hr]]]]]]]]];
    [contradiction | |]; rewrite Hr.
  - exists (S rn), w. split; [reflexivity|].
    apply first_choice_in_support. unfold keys. apply in_map_iff.
    now exists (w, n).
  - pose proof (count_first_choices_wf t) as Hwf.
    destruct (elimination_head_least _ tb we re e tl Hwf Hs) as [Hge _].
    apply get_In_keys in Hge. apply first_choice_in_support in Hge.
    pose proof (support_next_tally_length t e Hge) as Hsl.
    destruct (other_first_choice _ e Hwf Hlen) as [k [Hk Hke]].
    fold (next_tally t e).
    destruct (IH (S rn) (next_tally t e)) as [n [w [Hl Hw]]].
    + intros Hnil.
      assert (Hk' : In k (keys (count_first_choices (next_tally t e)))).
      { unfold next_tally.
        apply delete_name_keeps_first_choice; [|exact Hke].
        now apply delete_name_keeps_first_choice. }
      rewrite Hnil in Hk'. destruct Hk'.
    + lia.
    + exists n, w. split; [exact Hl|].
      now apply support_next_tally in Hw as [Hw _].
Qed.

End MoreRoundFacts.

Import MoreRoundFacts.

(** X7.  After [delete_double_undervotes] no ballot has two [undervote]
    in a row, every ballot is the beginning of a ballot of the input, the
    ballots of the input without such a pair are kept, and a second pass
    changes nothing. *)
Theorem delete_double_undervotes_leaves_no_pair (t : Tally) :
  (forall b', In b' (keys (delete_double_undervotes t)) ->
     (forall i, double_at b' i = false)
     /\ exists b rest, In b (keys t) /\ b = b' ++ rest)
  /\ (forall b, In b (keys t) -> (forall i, double_at b i = false) ->
        In b (keys (delete_double_undervotes t)))
  /\ delete_double_undervotes (delete_double_undervotes t)
     = delete_double_undervotes t.
Proof.
  split; [|split].
  - intros b' Hb'. apply delete_double_undervotes_keys in Hb' as [b [Hb <-]].
    split; [apply double_undervote_truncation_no_double|].
    destruct (double_undervote_truncation_prefix b) as [rest Hrest].
    now exists b, rest.
  - intros b Hb Hno. apply delete_double_undervotes_keys. exists b.
    split; [exact Hb | now apply double_undervote_truncation_fixed].
  - rewrite (delete_double_undervotes_merge (delete_double_undervotes t)).
    apply (merge_by_fixed _ (delete_double_undervotes t) []).
    + rewrite delete_double_undervotes_merge. apply merge_by_wf. constructor.
    + apply Forall_forall. intros b' Hb'.
      apply delete_double_undervotes_keys in Hb' as [b [_ <-]].
      rewrite double_undervote_ballot.
      apply double_undervote_truncation_fixed.
      apply double_undervote_truncation_no_double.
Qed.

Lemma delete_double_undervotes_leaves_no_pair_witness :
  (forall i, double_at ["b"] i = false)
  /\ exists b rest,
       In b (keys [(["b"; "undervote"; "undervote"; "c"], 1)])
       /\ b = ["b"] ++ rest.
Proof.
  destruct (delete_double_undervotes_leaves_no_pair
              [(["b"; "undervote"; "undervote"; "c"], 1)]) as [Hpair _].
  apply (Hpair ["b"]). vm_compute. now left.
Defined.

(** X8.  [count_first_choices] has one entry for each choice that is
    first on some ballot; its count is the sum of the counts of the ballots
    that begin with it, and all the counts together are the weight of the
    non-empty ballots. *)
Theorem count_first_choices_sums_by_first_token (t : Tally) :
  wf (count_first_choices t)
  /\ (forall c, In c (keys (count_first_choices t)) <->
                exists b n, In (c :: b, n) t)
  /\ (forall c, In c (keys (count_first_choices t)) ->
        get (count_first_choices t) c = Some (first_choice_weight t c))
  /\ sum (values (count_first_choices t)) = nonempty_weight t.
Proof.
  split; [apply count_first_choices_wf|].
  split; [intros c; apply count_first_choices_keys|]. split.
  - intros c Hc. apply count_first_choices_keys in Hc as [b [n Hin]].
    unfold count_first_choices. rewrite first_choices_get. simpl.
    match goal with
    | |- context [filter ?p t] => destruct (filter p t) eqn:E
    end; [|reflexivity].
    exfalso.
    assert (Hf : In (c :: b, n)
      (filter (fun kv => match fst kv with
                         | c' :: _ => String.eqb c' c
                         | [] => false
                         end) t)).
    { apply filter_In. split; [exact Hin|]. simpl. apply String.eqb_refl. }
    rewrite E in Hf. exact Hf.
  - rewrite sum_fold_right. fold (total_weight (count_first_choices t)).
    unfold count_first_choices. rewrite first_choices_total. reflexivity.
Qed.

Lemma count_first_choices_sums_by_first_token_witness :
  get (count_first_choices [(["a"; "b"], 1); (["c"], 1); ([], 1); (["a"], 1)]) "a"
  = Some 2.
Proof.
  destruct (count_first_choices_sums_by_first_token
              [(["a"; "b"], 1); (["c"], 1); ([], 1); (["a"], 1)])
    as [_ [_ [Hget _]]].
  rewrite (Hget "a"); [reflexivity|]. vm_compute. now left.
Defined.

(** X9.  The tie-break order matters only for ties: a winner of the
    round is the winner for every order, and when one choice alone has the
    least first-choice weight the whole outcome of the round is the same
    for every order. *)
Theorem rcv_round_order_only_breaks_ties (t : Tally) (tb1 tb2 : list Choice) :
  (forall w d, rcv_round t tb1 = inr (Winner w d) ->
               rcv_round t tb2 = inr (Winner w d))
  /\ ((forall c1 c2, least_weight (count_first_choices t) c1 ->
                     least_weight (count_first_choices t) c2 -> c1 = c2) ->
      rcv_round t tb1 = rcv_round t tb2).
Proof.
  split; [intros w d; apply rcv_round_winner_any_order|].
  intros Huniq.
  pose proof (count_first_choices_wf t) as Hwf.
  destruct (rcv_round_cases t tb1)
    as [[Hd Hr1] | [[w [n [_ [_ Hr1]]]] | [Hlen [Hnone [we [re [e [tl [Hs Hr1]]]]]]]]].
  - rewrite Hr1. unfold rcv_round. rewrite Hd. reflexivity.
  - rewrite Hr1. symmetry. now apply (rcv_round_winner_any_order t tb1).
  - destruct (rcv_round_cases t tb2)
      as [[Hd _] | [[w [n [Hin [Hsum _]]]] | [_ [_ [we' [re' [e' [tl' [Hs' Hr2]]]]]]]]].
    + rewrite Hd in Hlen. simpl in Hlen. lia.
    + exfalso. now apply (Hnone w n).
    + rewrite Hr1, Hr2.
      destruct (elimination_head_least _ tb1 we re e tl Hwf Hs)
        as [Hge [_ Hleast]].
      destruct (elimination_head_least _ tb2 we' re' e' tl' Hwf Hs')
        as [Hge' [_ Hleast']].
      assert (He : e = e').
      { apply Huniq.
        - exists we. split; [exact Hge|]. intros k wk Hk.
          specialize (Hleast k wk Hk). unfold elimination_tuple in Hleast.
          simpl in Hleast. apply tuple_leb_iff in Hleast. lia.
        - exists we'. split; [exact Hge'|]. intros k wk Hk.
          specialize (Hleast' k wk Hk). unfold elimination_tuple in Hleast'.
          simpl in Hleast'. apply tuple_leb_iff in Hleast'. lia. }
      now subst e'.
Qed.

Lemma rcv_round_order_only_breaks_ties_witness :
  rcv_round [(["a"], 3); (["b"], 1); (["c"], 2)] ["a"; "b"; "c"]
  = rcv_round [(["a"], 3); (["b"], 1); (["c"], 2)] ["c"; "b"].
Proof.
  destruct (rcv_round_order_only_breaks_ties
              [(["a"], 3); (["b"], 1); (["c"], 2)] ["a"; "b"; "c"] ["c"; "b"])
    as [_ Hsame].
  apply Hsame.
  replace (count_first_choices _) with [("a", 3); ("b", 1); ("c", 2)]
    by (vm_compute; reflexivity).
  assert (Hb : forall c, least_weight [("a", 3); ("b", 1); ("c", 2)] c ->
                         c = "b"%string).
  { intros c [w [Hg Hmin]].
    specialize (Hmin "b"%string 1 eq_refl).
    apply get_Some_In in Hg.
    destruct Hg as [[= <- <-] | [[= <- <-] | [[= <- <-] | []]]];
      [lia | reflexivity | lia]. }
  intros c1 c2 H1 H2. rewrite (Hb c1 H1), (Hb c2 H2). reflexivity.
Defined.

(** X10.  When some ballot of the tally is not empty, [rcv_winner] does
    not fail: given fuel beyond the number of distinct choices it returns a
    winner, and the winner is a choice that stands on a ballot of the
    tally. *)
Theorem rcv_winner_finds_winner_on_ballots
    (t : Tally) (tb : list Choice) (fuel : nat) :
  count_first_choices t <> [] ->
  (length (support t) + 1 <= fuel)%nat ->
  exists w, rcv_winner fuel t tb = Some (inr w) /\ In w (support t).
Proof.
  intros Hne Hfuel.
  destruct (rcv_winner_loop_winner fuel 0 t tb Hne) as [n [w [Hl Hw]]]; [lia|].
  exists w. split; [|exact Hw]. unfold rcv_winner. now rewrite Hl.
Qed.

Lemma rcv_winner_finds_winner_on_ballots_witness :
  exists w,
    rcv_winner 7
      [(["a"; "b"], 1); (["c"; "d"], 1); (["c"; "e"], 1); (["f"; "a"], 1)]
      ["a"; "b"; "c"; "d"; "e"; "f"] = Some (inr w)
    /\ In w (support
               [(["a"; "b"], 1); (["c"; "d"], 1); (["c"; "e"], 1); (["f"; "a"], 1)]).
Proof.
  apply rcv_winner_finds_winner_on_ballots.
  - vm_compute. discriminate.
  - vm_compute. lia.
Defined.

(** X11.  When every non-empty ballot begins with the same choice, and
    there is such a ballot, [rcv_winner] returns that choice in round 1,
    whatever the counts and the tie-break order. *)
Theorem rcv_winner_same_first_choice
    (t : Tally) (tb : list Choice) (c : Choice) (fuel : nat) :
  (forall b n, In (b, n) t -> b = [] \/ exists rest, b = c :: rest) ->
  (exists rest n, In (c :: rest, n) t) ->
  rcv_winner_loop (S fuel) 0 t tb = Some (1%nat, inr c).
Proof.
  intros Hall [rest [n Hin]].
  pose proof (count_first_choices_wf t) as Hwf.
  assert (Hkeys : forall k, In k (keys (count_first_choices t)) -> k = c).
  { intros k Hk. apply count_first_choices_keys in Hk as [b [m Hb]].
    destruct (Hall _ _ Hb) as [Hnil | [r Hr]]; congruence. }
  assert (Hc : In c (keys (count_first_choices t)))
    by (apply count_first_choices_keys; eauto).
  simpl. unfold rcv_round. cbv zeta.
  destruct (count_first_choices t) as [|[k1 n1] [|[k2 n2] r]].
  - destruct Hc.
  - simpl. rewrite (Hkeys k1); [reflexivity | now left].
  - exfalso. unfold wf in Hwf. simpl in Hwf.
    inversion Hwf as [|? ? Hnotin _]; subst. apply Hnotin. left.
    rewrite (Hkeys k1), (Hkeys k2); simpl; tauto.
Qed.

Lemma rcv_winner_same_first_choice_witness :
  rcv_winner_loop 1 0 [(["a"; "b"], 1); ([], 4); (["a"; "c"], 1)] ["c"; "b"]
  = Some (1%nat, inr "a"%string).
Proof.
  apply rcv_winner_same_first_choice.
  - intros b n [[= <- <-] | [[= <- <-] | [[= <- <-] | []]]];
      [right; now exists ["b"] | now left | right; now exists ["c"]].
  - exists ["b"], 1. now left.
Defined.

(** X12.  The round has no majority threshold: with nonnegative integer
    counts, as soon as two choices have positive first-choice weight the
    round eliminates, however large the share of the stronger one. *)
Theorem rcv_round_no_majority_threshold
    (t : Tally) (tb : list Choice) (c1 c2 : Choice) (n1 n2 : Z) :
  nonnegative t ->
  get (count_first_choices t) c1 = Some n1 ->
  get (count_first_choices t) c2 = Some n2 ->
  c1 <> c2 -> 0 < n1 -> 0 < n2 ->
  exists e, rcv_round t tb
            = inr (Elimination (count_first_choices t) e
                     (delete_name t e false)).
Proof.
  intros Hnn Hg1 Hg2 Hne Hp1 Hp2.
  pose proof (count_first_choices_nonnegative t Hnn) as Hdnn.
  pose proof (count_first_choices_wf t) as Hwf.
  destruct (rcv_round_cases t tb)
    as [[Hd _] | [[w [n [Hin [Hsum _]]]] | [_ [_ [we [re [e [tl [_ Hr]]]]]]]]].
  - rewrite Hd in Hg1. discriminate.
  - exfalso. apply wf_In_get in Hin; [|exact Hwf].
    destruct (string_dec w c1) as [->|Hw1].
    + pose proof (sum_ge_two _ c1 n c2 n2 Hdnn Hin Hg2 Hne). lia.
    + pose proof (sum_ge_two _ w n c1 n1 Hdnn Hin Hg1 Hw1). lia.
  - now exists e.
Qed.

Lemma rcv_round_no_majority_threshold_witness :
  exists e,
    rcv_round [(["a"], 9); (["b"; "a"], 1)] []
    = inr (Elimination (count_first_choices [(["a"], 9); (["b"; "a"], 1)]) e
             (delete_name [(["a"], 9); (["b"; "a"], 1)] e false)).
Proof.
  apply (rcv_round_no_majority_threshold
           [(["a"], 9); (["b"; "a"], 1)] [] "a" "b" 9 1).
  - repeat constructor; simpl; lia.
  - reflexivity.
  - reflexivity.
  - discriminate.
  - lia.
  - lia.
Defined.

Module CountFacts.
Import Dict DictFacts Rcv Outcomes Spec Notions RoundFacts ConversionFacts.
Local Open Scope Z_scope.

Section Counting.
Context {K : Type} `{EqDec K}.
Implicit Types (d acc : dict K Z) (l vec : list K).

Lemma compute_tally_fold vec :
  compute_tally vec = fold_left (fun d x => accum d x 1) vec [].
Proof.
  unfold compute_tally. generalize (@nil (K * Z)).
  induction vec as [|x r IH]; intros acc; [reflexivity|].
  simpl. rewrite IH. f_equal. unfold accum. now destruct (get acc x).
Qed.

Lemma count_fold_get l acc b :
  get (fold_left (fun d x => accum d x 1) l acc) b =
  match count_occ eq_dec l b with
  | O => get acc b
  | S _ =>
      Some (match get acc b with Some n => n | None => 0 end
            + Z.of_nat (count_occ eq_dec l b))
  end.
Proof.
  revert acc. induction l as [|x r IH]; intros acc; [reflexivity|].
  cbn [fold_left count_occ]. rewrite IH.
  destruct (eq_dec x b) as [->|Hne].
  - rewrite get_accum_same.
    destruct (count_occ eq_dec r b); destruct (get acc b); f_equal; lia.
  - rewrite get_accum_other by congruence. reflexivity.
Qed.

Lemma count_fold_wf l acc :
  wf acc -> wf (fold_left (fun d x => accum d x 1) l acc).
Proof.
  revert acc. induction l as [|x r IH]; intros acc Hwf; [exact Hwf|].
  simpl. apply IH. now apply wf_accum.
Qed.

Lemma count_fold_total l acc :
  total_weight (fold_left (fun d x => accum d x 1) l acc) =
  total_weight acc + Z.of_nat (length l).
Proof.
  revert acc. induction l as [|x r IH]; intros acc.
  - simpl. lia.
  - cbn [fold_left length]. rewrite IH, MergeFacts.total_weight_accum. lia.
Qed.

Lemma count_fold_keys l acc x :
  In x (keys (fold_left (fun d x => accum d x 1) l acc)) <->
  In x (keys acc) \/ In x l.
Proof.
  revert acc. induction l as [|y r IH]; intros acc; simpl; [tauto|].
  rewrite IH, In_keys_accum. intuition congruence.
Qed.

Lemma compute_tally_get vec b :
  get (compute_tally vec) b =
  match count_occ eq_dec vec b with
  | O => None
  | S n => Some (Z.of_nat (S n))
  end.
Proof.
  rewrite compute_tally_fold, count_fold_get. simpl.
  now destruct (count_occ eq_dec vec b).
Qed.
End Counting.

Lemma convert_ballots_to_tally_compute (ballots : list Ballot) :
  convert_ballots_to_tally ballots = compute_tally ballots.
Proof.
  unfold convert_ballots_to_tally.
  now rewrite convert_ballots_to_tally_fold, compute_tally_fold.
Qed.

(** ** Expansion *)

Lemma convert_tally_to_ballots_cons b n (t : Tally) :
  convert_tally_to_ballots ((b, n) :: t) =
  repeat b (Z.to_nat n) ++ convert_tally_to_ballots t.
Proof. reflexivity. Qed.

Lemma convert_tally_to_ballots_In (t : Tally) b :
  In b (convert_tally_to_ballots t) -> In b (keys t).
Proof.
  induction t as [|[b' n] r IH]; [tauto|].
  rewrite convert_tally_to_ballots_cons, in_app_iff. simpl.
  intros [Hrep | Hin]; [left | right; now apply IH].
  now apply repeat_spec in Hrep.
Qed.

Lemma expand_accum (acc : Tally) b :
  nonnegative acc ->
  Permutation (convert_tally_to_ballots (accum acc b 1))
    (b :: convert_tally_to_ballots acc).
Proof.
  unfold nonnegative. induction acc as [|[b' n] r IH]; intros Hnn.
  - rewrite accum_nil. reflexivity.
  - inversion Hnn as [|? ? Hn Hr]; subst. simpl in Hn.
    rewrite accum_cons. destruct (eq_dec b' b) as [->|Hne].
    + rewrite !convert_tally_to_ballots_cons.
      replace (Z.to_nat (n + 1)) with (S (Z.to_nat n)) by lia. reflexivity.
    + rewrite !convert_tally_to_ballots_cons, (IH Hr).
      symmetry. apply Permutation_middle.
Qed.

Lemma expand_count_fold (l : list Ballot) (acc : Tally) :
  nonnegative acc ->
  Permutation
    (convert_tally_to_ballots (fold_left (fun d x => accum d x 1) l acc))
    (convert_tally_to_ballots acc ++ l).
Proof.
  revert acc. induction l as [|x r IH]; intros acc Hnn.
  - simpl. now rewrite app_nil_r.
  - cbn [fold_left]. rewrite IH by (apply accum_nonnegative; [exact Hnn | lia]).
    rewrite (expand_accum acc x Hnn). simpl. apply Permutation_middle.
Qed.

End CountFacts.

Import CountFacts.

Local Open Scope Z_scope.

(** X13.  [convert_ballots_to_tally] counts: the count of a ballot is the
    number of its occurrences in the list, a ballot that does not occur
    has no entry, the ballots of the result are distinct, and the counts
    add up to the length of the list. *)
Theorem convert_ballots_to_tally_counts_occurrences (ballots : list Ballot) :
  wf (convert_ballots_to_tally ballots)
  /\ (forall b, In b ballots ->
        get (convert_ballots_to_tally ballots) b
        = Some (Z.of_nat (count_occ eq_dec ballots b)))
  /\ (forall b, ~ In b ballots ->
        get (convert_ballots_to_tally ballots) b = None)
  /\ total_weight (convert_ballots_to_tally ballots)
     = Z.of_nat (length ballots).
Proof.
  rewrite convert_ballots_to_tally_compute. split; [|split; [|split]].
  - rewrite compute_tally_fold. apply count_fold_wf. constructor.
  - intros b Hin. rewrite compute_tally_get.
    apply (count_occ_In eq_dec) in Hin.
    destruct (count_occ eq_dec ballots b); [lia | reflexivity].
  - intros b Hn. rewrite compute_tally_get.
    apply (count_occ_not_In eq_dec) in Hn. now rewrite Hn.
  - rewrite compute_tally_fold, count_fold_total. reflexivity.
Qed.

Lemma convert_ballots_to_tally_counts_occurrences_witness :
  get (convert_ballots_to_tally [["a"]; ["b"]; ["a"]]) ["a"] = Some 2.
Proof.
  destruct (convert_ballots_to_tally_counts_occurrences [["a"]; ["b"]; ["a"]])
    as [_ [Hget _]].
  rewrite (Hget ["a"]); [reflexivity | now left].
Defined.

(** X14.  Expanding the tally of a list of ballots gives the ballots of
    the list back, each as often as before, grouped by ballot:
    [convert_tally_to_ballots(convert_ballots_to_tally(l))] is a
    permutation of [l]. *)
Theorem expand_collapse_permutation (ballots : list Ballot) :
  Permutation (convert_tally_to_ballots (convert_ballots_to_tally ballots))
    ballots.
Proof.
  unfold convert_ballots_to_tally. rewrite convert_ballots_to_tally_fold.
  apply (expand_count_fold ballots []). constructor.
Qed.

(** X15.  In [convert_tally_to_ballots(tally)] a ballot of a tally with
    distinct ballots stands as often as its count says, not at all for a
    count of zero or less; with nonnegative counts the length of the list
    is the total weight of the tally. *)
Theorem convert_tally_to_ballots_repeats_by_count (t : Tally) :
  (wf t -> forall b n, In (b, n) t ->
     count_occ eq_dec (convert_tally_to_ballots t) b = Z.to_nat n)
  /\ (forall b, ~ In b (keys t) -> ~ In b (convert_tally_to_ballots t))
  /\ (nonnegative t ->
      Z.of_nat (length (convert_tally_to_ballots t)) = total_weight t).
Proof.
  split; [|split].
  - unfold wf. induction t as [|[b' n'] r IH]; intros Hwf b n Hin;
      [destruct Hin|].
    simpl in Hwf. inversion Hwf as [|? ? Hnotin Hwf']; subst.
    rewrite convert_tally_to_ballots_cons, count_occ_app.
    destruct Hin as [[= -> ->] | Hin].
    + rewrite count_occ_repeat_eq by reflexivity.
      assert (Hz : count_occ eq_dec (convert_tally_to_ballots r) b = 0%nat).
      { apply count_occ_not_In. intros Hb. apply Hnotin.
        now apply convert_tally_to_ballots_In. }
      rewrite Hz. lia.
    + rewrite count_occ_repeat_neq.
      * simpl. now apply IH.
      * intros ->. apply Hnotin. unfold keys. apply in_map_iff.
        now exists (b', n).
  - intros b Hn Hin. apply Hn. now apply convert_tally_to_ballots_In.
  - unfold nonnegative, total_weight, values.
    induction 1 as [|[b n] r Hn Hr IH]; [reflexivity|].
    simpl in Hn. rewrite convert_tally_to_ballots_cons, length_app,
      repeat_length. simpl. lia.
Qed.

Lemma convert_tally_to_ballots_repeats_by_count_witness :
  count_occ eq_dec (convert_tally_to_ballots [(["a"], 2); ([], 0); (["b"], 1)])
    ["a"] = 2%nat.
Proof.
  destruct (convert_tally_to_ballots_repeats_by_count
              [(["a"], 2); ([], 0); (["b"], 1)]) as [Hocc _].
  apply (Hocc) with (n := 2).
  - unfold wf. simpl. repeat constructor; simpl; intuition discriminate.
  - now left.
Defined.

(** X16.  [compute_tally] counts the occurrences of every element of
    [vec], whatever the elements are; its counts add up to [len(vec)]; and
    on a list of ballots it is the tally that
    [rcv.convert_ballots_to_tally] builds. *)
Theorem compute_tally_counts_occurrences :
  (forall (K : Type) (EK : EqDec K) (vec : list K),
     wf (compute_tally vec)
     /\ (forall x, In x vec ->
           get (compute_tally vec) x = Some (Z.of_nat (count_occ eq_dec vec x)))
     /\ (forall x, ~ In x vec -> get (compute_tally vec) x = None)
     /\ total_weight (compute_tally vec) = Z.of_nat (length vec))
  /\ (forall ballots : list Ballot,
        compute_tally ballots = convert_ballots_to_tally ballots).
Proof.
  split.
  - intros K EK vec. split; [|split; [|split]].
    + rewrite compute_tally_fold. apply count_fold_wf. constructor.
    + intros x Hin. rewrite compute_tally_get.
      apply (count_occ_In eq_dec) in Hin.
      destruct (count_occ eq_dec vec x); [lia | reflexivity].
    + intros x Hn. rewrite compute_tally_get.
      apply (count_occ_not_In eq_dec) in Hn. now rewrite Hn.
    + rewrite compute_tally_fold, count_fold_total. reflexivity.
  - intros ballots. symmetry. apply convert_ballots_to_tally_compute.
Qed.

Lemma compute_tally_counts_occurrences_witness :
  get (compute_tally ["x"; "y"; "x"; "x"]%string) "x"%string = Some 3.
Proof.
  destruct compute_tally_counts_occurrences as [Hgen _].
  destruct (Hgen string _ ["x"; "y"; "x"; "x"]%string) as [_ [Hget _]].
  rewrite (Hget "x"%string); [reflexivity | now left].
Defined.

Module PluralityFacts.
Import Dict DictFacts Rcv Outcomes Spec Notions.
Local Open Scope Z_scope.

Section Plurality.
Variable is_error_selid : string -> bool.

Lemma may_win_test vote :
  Nat.eqb (length vote) 1 && negb (is_error_selid (hd EmptyString vote)) = true
  <-> may_win is_error_selid vote.
Proof.
  unfold may_win. destruct vote as [|selid [|second others]]; simpl.
  - split; [discriminate | intros [x [Hx _]]; discriminate].
  - rewrite negb_true_iff. split.
    + intros He. now exists selid.
    + intros [x [[= <-] He]]. exact He.
  - split; [discriminate | intros [x [Hx _]]; discriminate].
Qed.

Lemma plurality_step_taken m mv vote cnt :
  m < cnt -> may_win is_error_selid vote ->
  plurality_step is_error_selid (m, mv) (vote, cnt) = (cnt, Some vote).
Proof.
  intros Hlt Hw. unfold plurality_step. apply may_win_test in Hw.
  replace (Z.gtb cnt m) with true by (symmetry; apply Z.gtb_lt; lia).
  rewrite <- andb_assoc, Hw. reflexivity.
Qed.

Lemma plurality_step_kept m mv vote cnt :
  ~ (m < cnt /\ may_win is_error_selid vote) ->
  plurality_step is_error_selid (m, mv) (vote, cnt) = (m, mv).
Proof.
  intros Hno. unfold plurality_step. rewrite <- andb_assoc.
  destruct (Z.gtb cnt m) eqn:Eg; [|reflexivity].
  destruct (Nat.eqb (length vote) 1
            && negb (is_error_selid (hd EmptyString vote))) eqn:Ew;
    [|reflexivity].
  exfalso. apply Hno. split; [apply Z.gtb_lt in Eg; lia|].
  now apply may_win_test.
Qed.

(** The loop keeps the first of the best votes that may win. *)
Lemma plurality_fold l m mv :
  (fold_left (plurality_step is_error_selid) l (m, mv) = (m, mv)
   /\ forall v c, In (v, c) l -> may_win is_error_selid v -> c <= m)
  \/ (exists pre v c post,
        l = pre ++ (v, c) :: post
        /\ fold_left (plurality_step is_error_selid) l (m, mv) = (c, Some v)
        /\ may_win is_error_selid v /\ m < c
        /\ (forall v' c', In (v', c') pre ->
              may_win is_error_selid v' -> c' < c)
        /\ (forall v' c', In (v', c') post ->
              may_win is_error_selid v' -> c' <= c)).
Proof.
  revert m mv. induction l as [|[vote cnt] r IH]; intros m mv.
  - left. split; [reflexivity | intros v c []].
  - cbn [fold_left].
    destruct (Z_lt_dec m cnt) as [Hlt|Hge];
      [destruct (may_win_test vote) as [_ Hmw];
       destruct (Nat.eqb (length vote) 1
                 && negb (is_error_selid (hd EmptyString vote))) eqn:Ew|].
    + assert (Hw : may_win is_error_selid vote) by now apply may_win_test.
      rewrite (plurality_step_taken m mv vote cnt Hlt Hw).
      destruct (IH cnt (Some vote))
        as [[Hr Hle] | [pre [v [c [post [-> [Hr [Hv [Hc [Hpre Hpost]]]]]]]]]].
      * right. exists [], vote, cnt, r. split; [reflexivity|].
        split; [exact Hr|]. split; [exact Hw|]. split; [exact Hlt|].
        split; [intros v' c' [] | exact Hle].
      * right. exists ((vote, cnt) :: pre), v, c, post.
        split; [reflexivity|]. split; [exact Hr|]. split; [exact Hv|].
        split; [lia|]. split; [|exact Hpost].
        intros v' c' [[= <- <-] | Hin] Hw'; [lia | now apply (Hpre v')].
    + assert (Hnw : ~ may_win is_error_selid vote).
      { intros Hw. apply may_win_test in Hw. congruence. }
      rewrite plurality_step_kept by tauto.
      destruct (IH m mv)
        as [[Hr Hle] | [pre [v [c [post [-> [Hr [Hv [Hc [Hpre Hpost]]]]]]]]]].
      * left. split; [exact Hr|].
        intros v' c' [[= <- <-] | Hin] Hw'; [contradiction | now apply (Hle v')].
      * right. exists ((vote, cnt) :: pre), v, c, post.
        split; [reflexivity|]. split; [exact Hr|]. split; [exact Hv|].
        split; [exact Hc|]. split; [|exact Hpost].
        intros v' c' [[= <- <-] | Hin] Hw';
          [contradiction | now apply (Hpre v')].
    + rewrite plurality_step_kept by tauto.
      destruct (IH m mv)
        as [[Hr Hle] | [pre [v [c [post [-> [Hr [Hv [Hc [Hpre Hpost]]]]]]]]]].
      * left. split; [exact Hr|].
        intros v' c' [[= <- <-] | Hin] Hw'; [lia | now apply (Hle v')].
      * right. exists ((vote, cnt) :: pre), v, c, post.
        split; [reflexivity|]. split; [exact Hr|]. split; [exact Hv|].
        split; [exact Hc|]. split; [|exact Hpost].
        intros v' c' [[= <- <-] | Hin] Hw'; [lia | now apply (Hpre v')].
Qed.
End Plurality.

Lemma plurality_outcome (is_error_selid : string -> bool)
    (tally : dict (list string) Z) :
  (plurality is_error_selid tally = None <->
   forall v c, In (v, c) tally -> may_win is_error_selid v -> c <= minus_1e90)
  /\ (forall v, plurality is_error_selid tally = Some v ->
        exists pre c post,
          tally = pre ++ (v, c) :: post
          /\ may_win is_error_selid v /\ minus_1e90 < c
          /\ (forall v' c', In (v', c') pre ->
                may_win is_error_selid v' -> c' < c)
          /\ (forall v' c', In (v', c') post ->
                may_win is_error_selid v' -> c' <= c)).
Proof.
  unfold plurality.
  destruct (plurality_fold is_error_selid tally minus_1e90 None)
    as [[Hr Hle] | [pre [v [c [post [Ht [Hr [Hv [Hc [Hpre Hpost]]]]]]]]]];
    rewrite Hr; simpl.
  - split; [tauto | discriminate].
  - split.
    + split; [discriminate|]. intros Hall. exfalso.
      assert (c <= minus_1e90); [|lia].
      apply (Hall v); [|exact Hv]. rewrite Ht. apply in_app_iff. right. now left.
    + intros v' [= <-]. now exists pre, c, post.
Qed.

End PluralityFacts.

Import PluralityFacts.

(** X17.  [plurality] never fails.  It returns [None] exactly when no
    vote that may win (one selection, not an error selection) has a count
    above [-1e90]; otherwise it returns such a vote whose count no vote
    that may win exceeds, the first of them in the order of the tally. *)
Theorem plurality_first_of_the_best
    (is_error_selid : string -> bool) (tally : dict (list string) Z) :
  (plurality is_error_selid tally = None <->
   forall v c, In (v, c) tally -> may_win is_error_selid v -> c <= minus_1e90)
  /\ (forall v, plurality is_error_selid tally = Some v ->
        exists pre c post,
          tally = pre ++ (v, c) :: post
          /\ may_win is_error_selid v /\ minus_1e90 < c
          /\ (forall v' c', In (v', c') pre ->
                may_win is_error_selid v' -> c' < c)
          /\ (forall v' c', In (v', c') post ->
                may_win is_error_selid v' -> c' <= c)).
Proof.
  unfold plurality.
  destruct (plurality_fold is_error_selid tally minus_1e90 None)
    as [[Hr Hle] | [pre [v [c [post [Ht [Hr [Hv [Hc [Hpre Hpost]]]]]]]]]];
    rewrite Hr; simpl.
  - split; [tauto | discriminate].
  - split.
    + split; [discriminate|]. intros Hall. exfalso.
      assert (c <= minus_1e90); [|lia].
      apply (Hall v); [|exact Hv]. rewrite Ht. apply in_app_iff. right. now left.
    + intros v' [= <-]. now exists pre, c, post.
Qed.

Lemma plurality_first_of_the_best_witness :
  exists pre c post,
    [(["a"], 2); (["b"; "c"], 9); (["-Invalid"], 7); (["d"], 5); (["e"], 5)]
    = pre ++ (["d"], c) :: post
    /\ minus_1e90 < c.
Proof.
  destruct (plurality_first_of_the_best
              (fun s => String.prefix "-" s)
              [(["a"], 2); (["b"; "c"], 9); (["-Invalid"], 7); (["d"], 5);
               (["e"], 5)]) as [_ Hsome].
  destruct (Hsome ["d"] eq_refl) as [pre [c [post [Ht [_ [Hc _]]]]]].
  now exists pre, c, post.
Defined.

Module ApprovalFacts.
Import Dict DictFacts Rcv Outcomes Spec Notions.
Local Open Scope Z_scope.

Lemma approve_get cands count a c :
  get (approve a (cands, count)) c =
  match count_occ string_dec cands c with
  | O => get a c
  | S _ =>
      Some (match get a c with Some n => n | None => 0 end
            + count * Z.of_nat (count_occ string_dec cands c))
  end.
Proof.
  unfold approve. simpl. revert a.
  induction cands as [|x r IH]; intros a; [reflexivity|].
  cbn [fold_left count_occ]. rewrite IH.
  destruct (string_dec x c) as [->|Hne].
  - rewrite get_accum_same.
    destruct (count_occ string_dec r c); destruct (get a c); f_equal; lia.
  - rewrite get_accum_other by congruence. reflexivity.
Qed.

Lemma approve_keys cands count a c :
  In c (keys (approve a (cands, count))) <-> In c (keys a) \/ In c cands.
Proof.
  unfold approve. simpl. revert a.
  induction cands as [|x r IH]; intros a; simpl; [tauto|].
  rewrite IH, In_keys_accum. intuition congruence.
Qed.

Lemma approve_wf cands count a : wf a -> wf (approve a (cands, count)).
Proof.
  unfold approve. simpl. revert a.
  induction cands as [|x r IH]; intros a Hwf; [exact Hwf|].
  simpl. apply IH. now apply wf_accum.
Qed.

Lemma approve_all_keys tally a c :
  In c (keys (fold_left approve tally a)) <->
  In c (keys a) \/ exists vote n, In (vote, n) tally /\ In c vote.
Proof.
  revert a. induction tally as [|[vote n] r IH]; intros a; cbn [fold_left].
  - split; [tauto|]. intros [Hin | [v [m [[] _]]]]. exact Hin.
  - rewrite IH, approve_keys. split.
    + intros [[Hin | Hin] | [v [m [Hin Hc]]]]; [now left | |].
      * right. exists vote, n. split; [now left | exact Hin].
      * right. exists v, m. split; [now right | exact Hc].
    + intros [Hin | [v [m [[[= <- <-] | Hin] Hc]]]];
        [now left; left | now left; right |].
      right. now exists v, m.
Qed.

Lemma approve_all_wf tally a : wf a -> wf (fold_left approve tally a).
Proof.
  revert a. induction tally as [|[vote n] r IH]; intros a Hwf; [exact Hwf|].
  cbn [fold_left]. apply IH. now apply approve_wf.
Qed.

Lemma approve_all_get tally a c :
  In c (keys (fold_left approve tally a)) ->
  get (fold_left approve tally a) c =
  Some (match get a c with Some n => n | None => 0 end + approvals tally c).
Proof.
  unfold approvals. revert a.
  induction tally as [|[vote n] r IH]; intros a Hin; cbn [fold_left] in *.
  - simpl. apply In_keys_get in Hin as [v Hv]. rewrite Hv. f_equal. lia.
  - rewrite (IH _ Hin), approve_get. simpl. f_equal.
    destruct (count_occ string_dec vote c); destruct (get a c); lia.
Qed.

(** The dictionary comprehension [{(k,): approval_tally[k] ...}]. *)
Lemma fixed_tally (a : dict string Z) (fixed : dict (list string) Z) :
  wf (fixed ++ map (fun kv => ([fst kv], snd kv)) a) ->
  fold_left (fun fixed '(k, n) => set fixed [k] n) a fixed
  = fixed ++ map (fun kv => ([fst kv], snd kv)) a.
Proof.
  revert fixed. induction a as [|[k n] r IH]; intros fixed Hwf.
  - simpl. now rewrite app_nil_r.
  - cbn [fold_left map fst snd] in *.
    assert (Hnotin : ~ In [k] (keys fixed)).
    { unfold wf, keys in *. rewrite map_app in Hwf. simpl in Hwf.
      apply NoDup_remove_2 in Hwf. intros Hin. apply Hwf.
      apply in_app_iff. now left. }
    rewrite set_notin by assumption.
    rewrite IH; rewrite <- app_assoc; [reflexivity | exact Hwf].
Qed.

Lemma fixed_wf (a : dict string Z) :
  wf a -> wf (map (fun kv => ([fst kv], snd kv)) a).
Proof.
  unfold wf, keys. rewrite map_map. simpl.
  induction a as [|[k n] r IH]; intros Hnd; simpl; [constructor|].
  inversion Hnd as [|? ? Hnotin Hnd']; subst. constructor; [|now apply IH].
  intros Hin. apply in_map_iff in Hin as [[k' n'] [[= ->] Hin]].
  apply Hnotin. apply in_map_iff. now exists (k, n').
Qed.

Lemma approval_unfold is_error_selid tally :
  approval is_error_selid tally =
  plurality is_error_selid
    (map (fun kv => ([fst kv], snd kv)) (fold_left approve tally [])).
Proof.
  unfold approval. cbv zeta.
  assert (Hloops : forall t a,
    fold_left
      (fun approval_tally '(accepted_candidates, count) =>
         fold_left
           (fun approval_tally candidate =>
              set approval_tally candidate
                (match get approval_tally candidate with
                 | Some n => n + count
                 | None => count
                 end))
           accepted_candidates approval_tally) t a
    = fold_left approve t a).
  { induction t as [|[vote n] r IH]; intros a; [reflexivity|].
    cbn [fold_left]. rewrite IH. reflexivity. }
  rewrite Hloops.
  rewrite (fixed_tally _ []); [reflexivity|].
  simpl. apply fixed_wf. apply approve_all_wf. constructor.
Qed.

End ApprovalFacts.

Import ApprovalFacts.

(** X18.  [approval] gives every candidate the sum of the counts of the
    votes that name it, a vote counting once for each time it names the
    candidate, and returns the one-candidate vote of a candidate that is
    not an error selection and whose approvals no such candidate exceeds;
    it returns [None] exactly when no such candidate has approvals above
    [-1e90]. *)
Theorem approval_returns_most_approved
    (is_error_selid : string -> bool) (tally : dict (list string) Z) :
  (forall v, approval is_error_selid tally = Some v ->
     exists c,
       v = [c] /\ is_error_selid c = false
       /\ (exists vote n, In (vote, n) tally /\ In c vote)
       /\ minus_1e90 < approvals tally c
       /\ forall c', (exists vote n, In (vote, n) tally /\ In c' vote) ->
            is_error_selid c' = false ->
            approvals tally c' <= approvals tally c)
  /\ (approval is_error_selid tally = None <->
      forall c, (exists vote n, In (vote, n) tally /\ In c vote) ->
        is_error_selid c = false -> approvals tally c <= minus_1e90).
Proof.
  rewrite approval_unfold.
  set (a := fold_left approve tally []).
  assert (Hwf : wf a) by (apply approve_all_wf; constructor).
  assert (Hkeys : forall c, In c (keys a) <->
                            exists vote n, In (vote, n) tally /\ In c vote).
  { intros c. unfold a. rewrite approve_all_keys. simpl. tauto. }
  assert (Hget : forall c n, In (c, n) a -> n = approvals tally c).
  { intros c n Hin.
    assert (Hk : In c (keys a))
      by (unfold keys; apply in_map_iff; now exists (c, n)).
    apply wf_In_get in Hin; [|exact Hwf].
    unfold a in Hin, Hk. rewrite (approve_all_get _ _ _ Hk) in Hin.
    simpl in Hin. now injection Hin as <-. }
  assert (Hfixed : forall v n,
    In (v, n) (map (fun kv => ([fst kv], snd kv)) a) <->
    exists c, v = [c] /\ In (c, n) a).
  { intros v n. rewrite in_map_iff. split.
    - intros [[c m] [[= <- <-] Hin]]. now exists c.
    - intros [c [-> Hin]]. now exists (c, n). }
  assert (Hin_a : forall c,
    (exists vote n, In (vote, n) tally /\ In c vote) ->
    In ([c], approvals tally c) (map (fun kv => ([fst kv], snd kv)) a)).
  { intros c Hc. apply Hkeys in Hc. unfold keys in Hc.
    apply in_map_iff in Hc as [[c0 n0] [Heq Hin]]. simpl in Heq. subst c0.
    apply Hfixed. exists c. split; [reflexivity|].
    now rewrite <- (Hget c n0 Hin). }
  destruct (plurality_outcome is_error_selid
              (map (fun kv => ([fst kv], snd kv)) a)) as [Hnone Hsome].
  split.
  - intros v Hv.
    destruct (Hsome v Hv) as [pre [n [post [Ht [[c [-> Hc]] [Hn [Hpre Hpost]]]]]]].
    assert (Hvin : In ([c], n) (map (fun kv => ([fst kv], snd kv)) a)).
    { rewrite Ht. apply in_app_iff. right. now left. }
    apply Hfixed in Hvin as [c0 [[= <-] Hca]].
    pose proof (Hget c n Hca) as Hn'. subst n.
    exists c. split; [reflexivity|]. split; [exact Hc|].
    split; [apply Hkeys; unfold keys; apply in_map_iff;
            now exists (c, approvals tally c)|].
    split; [exact Hn|].
    intros c' Hc' He'. pose proof (Hin_a c' Hc') as Hin'. rewrite Ht in Hin'.
    assert (Hw' : may_win is_error_selid [c']) by now exists c'.
    apply in_app_iff in Hin' as [Hin' | [[= _ ->] | Hin']].
    + specialize (Hpre _ _ Hin' Hw'). lia.
    + lia.
    + now apply (Hpost [c']).
  - rewrite Hnone. split.
    + intros Hall c Hc He. apply (Hall [c]); [now apply Hin_a|].
      now exists c.
    + intros Hall v n Hin [c [-> He]].
      apply Hfixed in Hin as [c0 [[= <-] Hca]].
      rewrite (Hget c n Hca). apply Hall; [|exact He].
      apply Hkeys. unfold keys. apply in_map_iff. now exists (c, n).
Qed.

Lemma approval_returns_most_approved_witness :
  exists c,
    ["Alice"] = [c]
    /\ minus_1e90
       < approvals [(["Alice"; "Bob"], 3); (["Alice"], 2); (["Eve"], 1); ([], 4)] c.
Proof.
  destruct (approval_returns_most_approved
              (fun s => String.prefix "-" s)
              [(["Alice"; "Bob"], 3); (["Alice"], 2); (["Eve"], 1); ([], 4)])
    as [Hsome _].
  destruct (Hsome ["Alice"] eq_refl) as [c [Hv [_ [_ [Hc _]]]]].
  now exists c.
Defined.

Module Tally2Facts.
Import Dict DictFacts Rcv Outcomes Spec Notions CountFacts.
Local Open Scope Z_scope.

Section Tally2.
Context {A R : Type} `{EqDec A} `{EqDec R}.

(** The actual votes that stand beside the reported vote [rv]. *)
Lemma count_occ_beside (vec : list (A * R)) av rv :
  count_occ eq_dec
    (map fst (filter (fun ar => if eq_dec rv (snd ar) then true else false) vec))
    av
  = count_occ eq_dec vec (av, rv).
Proof.
  induction vec as [|[a r] l IH]; [reflexivity|].
  cbn [filter snd]. destruct (eq_dec rv r) as [<-|Hne].
  - cbn [map fst count_occ]. rewrite IH.
    destruct (eq_dec a av) as [->|Hna].
    + destruct (eq_dec (av, rv) (av, rv)); congruence.
    + destruct (eq_dec (a, rv) (av, rv)); congruence.
  - rewrite IH. cbn [count_occ].
    destruct (eq_dec (a, r) (av, rv)); congruence.
Qed.

Lemma compute_tally2_fold (vec l : list (A * R)) acc rv :
  get (fold_left
         (fun tally2 '(av, rv) =>
            match get tally2 rv with
            | None =>
                set tally2 rv
                  (compute_tally
                     (map fst
                        (filter
                           (fun ar => if eq_dec rv (snd ar) then true else false)
                           vec)))
            | Some _ => tally2
            end) l acc) rv
  = match get acc rv with
    | Some inner => Some inner
    | None =>
        if existsb (fun ar => if eq_dec rv (snd ar) then true else false) l
        then Some (compute_tally
                     (map fst
                        (filter
                           (fun ar => if eq_dec rv (snd ar) then true else false)
                           vec)))
        else None
    end.
Proof.
  revert acc. induction l as [|[a r] l IH]; intros acc.
  - simpl. now destruct (get acc rv).
  - cbn [fold_left existsb snd]. rewrite IH.
    destruct (eq_dec rv r) as [<-|Hne].
    + destruct (get acc rv) as [inner|] eqn:Hg.
      * now rewrite Hg.
      * now rewrite get_set_same.
    + destruct (get acc r) as [inner|] eqn:Hg; [reflexivity|].
      rewrite get_set_other by congruence. reflexivity.
Qed.

Lemma compute_tally2_fold_wf (vec l : list (A * R)) acc :
  wf acc ->
  wf (fold_left
        (fun tally2 '(av, rv) =>
           match get tally2 rv with
           | None =>
               set tally2 rv
                 (compute_tally
                    (map fst
                       (filter
                          (fun ar => if eq_dec rv (snd ar) then true else false)
                          vec)))
           | Some _ => tally2
           end) l acc).
Proof.
  revert acc. induction l as [|[a r] l IH]; intros acc Hwf; [exact Hwf|].
  cbn [fold_left]. apply IH. destruct (get acc r); [exact Hwf|].
  now apply wf_set.
Qed.
End Tally2.

End Tally2Facts.

Import Tally2Facts.

(** X19.  [compute_tally2] has one entry for each reported vote of
    [vec]; the entry is the tally of the actual votes paired with that
    reported vote, so the count of an actual vote in it is the number of
    times the pair stands in [vec]. *)
Theorem compute_tally2_counts_pairs
    (A R : Type) (EA : EqDec A) (ER : EqDec R) (vec : list (A * R)) :
  wf (compute_tally2 vec)
  /\ (forall av rv, In (av, rv) vec ->
        exists inner,
          get (compute_tally2 vec) rv = Some inner
          /\ get inner av = Some (Z.of_nat (count_occ eq_dec vec (av, rv))))
  /\ (forall rv, (forall av, ~ In (av, rv) vec) ->
        get (compute_tally2 vec) rv = None).
Proof.
  split; [|split].
  - unfold compute_tally2. apply compute_tally2_fold_wf. constructor.
  - intros av rv Hin. unfold compute_tally2.
    rewrite compute_tally2_fold. simpl.
    assert (Hex : existsb (fun ar => if eq_dec rv (snd ar) then true else false)
                    vec = true).
    { apply existsb_exists. exists (av, rv). split; [exact Hin|]. simpl.
      destruct (eq_dec rv rv); congruence. }
    rewrite Hex. eexists. split; [reflexivity|].
    rewrite compute_tally_get, count_occ_beside.
    apply (count_occ_In eq_dec) in Hin.
    destruct (count_occ eq_dec vec (av, rv)); [lia | reflexivity].
  - intros rv Hno. unfold compute_tally2. rewrite compute_tally2_fold. simpl.
    destruct (existsb _ vec) eqn:Hex; [|reflexivity].
    apply existsb_exists in Hex as [[a r] [Hin Heq]]. simpl in Heq.
    destruct (eq_dec rv r) as [->|]; [|discriminate].
    exfalso. now apply (Hno a).
Qed.

Lemma compute_tally2_counts_pairs_witness :
  exists inner,
    get (compute_tally2 [("a", "r"); ("b", "r"); ("a", "s"); ("a", "r")]%string)
      "r"%string = Some inner
    /\ get inner "a"%string = Some 2%Z.
Proof.
  destruct (compute_tally2_counts_pairs string string _ _
              [("a", "r"); ("b", "r"); ("a", "s"); ("a", "r")]%string)
    as [_ [Hpair _]].
  destruct (Hpair "a"%string "r"%string) as [inner [Hg Hc]]; [now left|].
  exists inner. split; [exact Hg|]. rewrite Hc. reflexivity.
Defined.

Module MoreAdapterFacts.
Import Dict DictFacts Rcv Outcomes Spec Notions SortFacts DriverFacts.
Import AdapterFacts.

Lemma unpack_cases tok :
  (unpacks tok /\ exists rank candidate,
     unpack_rank_candidate tok = inr (rank, candidate))
  \/ (~ unpacks tok /\ unpack_rank_candidate tok = inl ValueError).
Proof.
  unfold unpacks, unpack_rank_candidate.
  destruct (split "-" tok) as [|r [|c [|x rest]]]; simpl.
  - right. split; [discriminate | reflexivity].
  - right. split; [discriminate | reflexivity].
  - left. split; [reflexivity | now exists r, c].
  - right. split; [discriminate | reflexivity].
Qed.

Lemma ordered_candidates_loop_cases l acc :
  (Forall unpacks l /\ exists cands, ordered_candidates_loop l acc = inr cands)
  \/ ((exists tok, In tok l /\ ~ unpacks tok)
      /\ ordered_candidates_loop l acc = inl ValueError).
Proof.
  revert acc. induction l as [|tok l IH]; intros acc; simpl.
  - left. split; [constructor | now exists acc].
  - destruct (unpack_cases tok) as [[Hu [r [c ->]]] | [Hn ->]].
    + destruct (IH (acc ++ [c])) as [[Hall Hok] | [[t [Hin Hn]] Herr]].
      * left. split; [now constructor | exact Hok].
      * right. split; [|exact Herr]. exists t. split; [now right | exact Hn].
    + right. split; [|reflexivity]. exists tok. split; [now left | exact Hn].
Qed.

Lemma adapt_cases vote :
  (Forall unpacks vote /\ exists cands, adapt vote = inr cands)
  \/ ((exists tok, In tok vote /\ ~ unpacks tok)
      /\ adapt vote = inl ValueError).
Proof.
  unfold adapt.
  pose proof (sorted_perm String.leb vote) as HP.
  destruct (ordered_candidates_loop_cases (sorted String.leb vote) [])
    as [[Hall Hok] | [[t [Hin Hn]] Herr]].
  - left. split; [|exact Hok]. now apply (Permutation_Forall HP).
  - right. split; [|exact Herr]. exists t. split; [|exact Hn].
    now apply (Permutation_in _ HP).
Qed.

Lemma ordered_tally_loop_cases tally acc :
  (exists ot, ordered_tally_loop tally acc = inr ot)
  \/ ((exists vote n tok, In (vote, n) tally /\ In tok vote /\ ~ unpacks tok)
      /\ ordered_tally_loop tally acc = inl ValueError).
Proof.
  revert acc. induction tally as [|[vote n] r IH]; intros acc; simpl.
  - left. now exists acc.
  - destruct (adapt_cases vote) as [[_ [cands ->]] | [[tok [Hin Hn]] ->]].
    + destruct (IH (set acc cands n)) as [Hok | [[v [m [t [Hv [Ht Hn]]]]] Herr]].
      * now left.
      * right. split; [|exact Herr]. exists v, m, t.
        split; [now right | now split].
    + right. split; [|reflexivity]. exists vote, n, tok.
      split; [now left | now split].
Qed.

Lemma ordered_tally_loop_malformed tally acc vote n tok :
  In (vote, n) tally -> In tok vote -> ~ unpacks tok ->
  ordered_tally_loop tally acc = inl ValueError.
Proof.
  revert acc. induction tally as [|[v m] r IH]; intros acc Hin Htok Hn;
    [destruct Hin|].
  simpl. destruct (adapt_cases v) as [[Hall [cands ->]] | [_ ->]];
    [|reflexivity].
  destruct Hin as [[= -> ->] | Hin].
  - rewrite Forall_forall in Hall. now apply Hall in Htok.
  - now apply IH.
Qed.

Lemma rcv_winner_error fuel t tb err :
  rcv_winner fuel t tb = Some (inl err) -> err = AssertionError.
Proof.
  unfold rcv_winner. generalize 0%nat. revert t.
  induction fuel as [|fuel IH]; intros t rn Hl; [discriminate|].
  simpl in Hl. destruct (rcv_round t tb) as [e | [w d | d e LL]] eqn:Hr.
  - simpl in Hl. injection Hl as <-. now apply rcv_round_error_inv in Hr.
  - discriminate.
  - now apply IH in Hl.
Qed.

(** Sorted lists with the same elements are equal. *)
Lemma sorted_unique (l1 l2 : list string) :
  StronglySorted (leb_le String.leb) l1 ->
  StronglySorted (leb_le String.leb) l2 ->
  Permutation l1 l2 -> l1 = l2.
Proof.
  intros H1. revert l2. induction H1 as [|a r1 Hr1 IH Ha]; intros l2 H2 HP.
  - apply Permutation_nil in HP. now subst.
  - destruct H2 as [|b r2 Hr2 Hb].
    + apply Permutation_sym, Permutation_nil in HP. discriminate.
    + assert (Hab : a = b).
      { rewrite Forall_forall in Ha, Hb.
        assert (Hina : In a (b :: r2))
          by (apply (Permutation_in _ HP); now left).
        assert (Hinb : In b (a :: r1))
          by (apply (Permutation_in _ (Permutation_sym HP)); now left).
        destruct Hina as [->|Hina]; [reflexivity|].
        destruct Hinb as [->|Hinb]; [reflexivity|].
        apply String.leb_antisym; [now apply Ha | now apply Hb]. }
      subst b. f_equal. apply IH; [exact Hr2|].
      now apply Permutation_cons_inv in HP.
Qed.

Lemma sorted_permutation (v1 v2 : list string) :
  Permutation v1 v2 -> sorted String.leb v1 = sorted String.leb v2.
Proof.
  intros HP. apply sorted_unique; try apply string_leb_StronglySorted.
  rewrite (sorted_perm String.leb v1), (sorted_perm String.leb v2). exact HP.
Qed.

End MoreAdapterFacts.

Import MoreAdapterFacts.

(** X20.  [IRV] fails on the unpacking of a token exactly when some
    token of some vote of the tally does not split at ["-"] into two
    parts; it then fails before any round is run, whatever the other
    votes. *)
Theorem IRV_fails_on_malformed_token (tally : dict (list string) Z) :
  ((exists vote n tok, In (vote, n) tally /\ In tok vote /\ ~ unpacks tok) ->
   forall fuel, IRV fuel tally = Some (inl ValueError))
  /\ (forall fuel, IRV fuel tally = Some (inl ValueError) ->
        exists vote n tok, In (vote, n) tally /\ In tok vote /\ ~ unpacks tok).
Proof.
  split.
  - intros [vote [n [tok [Hv [Ht Hn]]]]] fuel. unfold IRV.
    now rewrite (ordered_tally_loop_malformed tally [] vote n tok).
  - intros fuel. unfold IRV.
    destruct (ordered_tally_loop_cases tally []) as [[ot ->] | [Hbad ->]];
      [|intros _; exact Hbad].
    destruct (rcv_winner fuel ot []) as [[err|w]|] eqn:Hw; try discriminate.
    apply rcv_winner_error in Hw. subst err. discriminate.
Qed.

Lemma IRV_fails_on_malformed_token_witness :
  IRV 0 [(["1-a"; "2-b"], 3); (["1-Anne-Marie"; "2-b"], 1)]
  = Some (inl ValueError).
Proof.
  destruct (IRV_fails_on_malformed_token
              [(["1-a"; "2-b"], 3); (["1-Anne-Marie"; "2-b"], 1)])
    as [Hfail _].
  apply Hfail. exists ["1-Anne-Marie"; "2-b"], 1%Z, "1-Anne-Marie"%string.
  split; [right; now left|]. split; [now left|].
  unfold unpacks. vm_compute. discriminate.
Defined.

(** X21.  The adapter does not depend on the order in which a vote lists
    its tokens: votes with the same tokens adapt alike; and for rank
    tokens the candidates it returns are those of the tokens, each as
    often. *)
Theorem adapt_ignores_token_order :
  (forall v1 v2, Permutation v1 v2 -> adapt v1 = adapt v2)
  /\ (forall vote, Forall rank_token vote ->
        exists cands, adapt vote = inr cands
                      /\ Permutation cands (map candidate_part vote)).
Proof.
  split.
  - intros v1 v2 HP. unfold adapt. now rewrite (sorted_permutation v1 v2).
  - intros vote Hv. eexists. split; [now apply adapt_tokens|].
    apply Permutation_map. apply sorted_perm.
Qed.

Lemma adapt_ignores_token_order_witness :
  adapt ["1-a"; "3-b"; "2-c"] = adapt ["2-c"; "1-a"; "3-b"].
Proof.
  destruct adapt_ignores_token_order as [Hperm _].
  apply Hperm.
  apply (perm_trans (l' := ["1-a"; "2-c"; "3-b"]%string)).
  - apply perm_skip. apply perm_swap.
  - apply perm_swap.
Defined.

Module TransferFacts.
Import Dict DictFacts Rcv Spec Notions NormalizerFacts MergeFacts.
Local Open Scope Z_scope.





(** ** The two truncations commute *)




End TransferFacts.

Import TransferFacts.




(* ================================================================== *)
(** * The winner test and the IRV entry *)
(* ================================================================== *)

Module EntryFacts.
Import Dict DictFacts Rcv Outcomes Spec Notions SortFacts RoundFacts.
Import DriverFacts AdapterFacts MoreRoundFacts MoreAdapterFacts.
Local Open Scope Z_scope.

(** ** The total that the round compares with *)

Lemma round_total (t : Tally) :
  sum (values (count_first_choices t))
  = fold_right Z.add 0 (values (count_first_choices t))
  /\ fold_right Z.add 0 (values (count_first_choices t)) = nonempty_weight t.
Proof.
  split; [apply sum_fold_right|].
  fold (total_weight (count_first_choices t)).
  unfold count_first_choices. rewrite first_choices_total. reflexivity.
Qed.

Lemma rcv_round_exhausted t tb fuel :
  count_first_choices t = [] ->
  rcv_winner (S fuel) t tb = Some (inl AssertionError).
Proof.
  intros Hd. unfold rcv_winner. simpl. unfold rcv_round. rewrite Hd.
  reflexivity.
Qed.

Lemma rcv_round_same_first t tb c :
  (forall b, In b (keys t) -> b = [] \/ exists rest, b = c :: rest) ->
  (exists rest, In (c :: rest) (keys t)) ->
  rcv_round t tb = inr (Winner c (count_first_choices t)).
Proof.
  intros Hall [rest Hin].
  pose proof (count_first_choices_wf t) as Hwf.
  assert (Hkeys : forall k, In k (keys (count_first_choices t)) -> k = c).
  { intros k Hk. apply count_first_choices_keys in Hk as [b [m Hb]].
    assert (Hb' : In (k :: b) (keys t))
      by (unfold keys; apply in_map_iff; now exists (k :: b, m)).
    destruct (Hall _ Hb') as [Hnil | [r Hr]]; congruence. }
  assert (Hc : In c (keys (count_first_choices t))).
  { unfold keys in Hin. apply in_map_iff in Hin as [[b n] [Hb Hin]].
    simpl in Hb. subst b. apply count_first_choices_keys. eauto. }
  unfold rcv_round. cbv zeta.
  destruct (count_first_choices t) as [|[k1 n1] [|[k2 n2] r]].
  - destruct Hc.
  - simpl. rewrite (Hkeys k1); [reflexivity | now left].
  - exfalso. unfold wf in Hwf. simpl in Hwf.
    inversion Hwf as [|? ? Hnotin _]; subst. apply Hnotin. left.
    rewrite (Hkeys k1), (Hkeys k2); simpl; tauto.
Qed.

(** ** The adapted tally *)

Lemma adapt_adapted vote :
  Forall rank_token vote -> adapt vote = inr (adapted_ballot vote).
Proof. apply adapt_tokens. Qed.

Lemma ordered_tally_loop_adapted tally acc :
  Forall (fun kv => Forall rank_token (fst kv)) tally ->
  exists ot,
    ordered_tally_loop tally acc = inr ot
    /\ (wf acc -> wf ot)
    /\ (forall s, In s (keys ot) <->
                  In s (keys acc) \/
                  exists vote, In vote (keys tally) /\ adapted_ballot vote = s)
    /\ (forall s, get ot s = match last_count tally s with
                             | Some m => Some m
                             | None => get acc s
                             end).
Proof.
  intros Ht. revert acc.
  induction Ht as [|[vote n] tally Hv Ht IH]; intros acc.
  - exists acc. split; [reflexivity|]. split; [tauto|]. split.
    + intros s. simpl. split; [tauto|]. intros [Hin | [v [[] _]]]. exact Hin.
    + reflexivity.
  - simpl in Hv. cbn [ordered_tally_loop]. rewrite (adapt_adapted vote Hv).
    destruct (IH (set acc (adapted_ballot vote) n))
      as [ot [Hl [Hwf [Hkeys Hget]]]].
    exists ot. split; [exact Hl|]. split; [|split].
    + intros Hacc. apply Hwf. now apply wf_set.
    + intros s. rewrite Hkeys, In_keys_set. simpl. split.
      * intros [[Hin | ->] | [v [Hv' Hs]]]; [now left | |].
        -- right. exists vote. split; [now left | reflexivity].
        -- right. exists v. split; [now right | exact Hs].
      * intros [Hin | [v [[<- | Hv'] Hs]]]; [now left; left | |].
        -- left. right. now symmetry.
        -- right. now exists v.
    + intros s. rewrite Hget. cbn [last_count].
      destruct (last_count tally s); [reflexivity|].
      destruct (eq_dec (adapted_ballot vote) s) as [<-|Hne].
      * apply get_set_same.
      * apply get_set_other. congruence.
Qed.

End EntryFacts.

Import EntryFacts.

Local Open Scope Z_scope.

(** C2, amended.  On a tally with nonnegative integer counts and a
    non-empty first-choice mapping [d], the round declares a winner exactly
    when exactly one choice has positive weight or some choice holds the
    sum of all the weights of [d]; the winner it declares holds that sum,
    which is the weight of the non-empty ballots; otherwise it eliminates.
    The sole-candidate test of the code ([len(d) == 1]) is a case of the
    second condition. *)
Theorem round_winner_iff (t : Tally) (tb : list Choice) :
  let d := count_first_choices t in
  nonnegative t ->
  d <> [] ->
  ((exists w, rcv_round t tb = inr (Winner w d)) <->
   (sole_positive d \/ holds_whole d))
  /\ (forall w d', rcv_round t tb = inr (Winner w d') ->
        d' = d
        /\ exists n, get d w = Some n
                     /\ n = fold_right Z.add 0 (values d)
                     /\ n = nonempty_weight t)
  /\ (~ (sole_positive d \/ holds_whole d) ->
      exists e, rcv_round t tb = inr (Elimination d e (delete_name t e false)))
  /\ (length d = 1%nat ->
      exists w n, d = [(w, n)] /\ rcv_round t tb = inr (Winner w d)).
Proof.
  intros d Hnn Hne. subst d.
  pose proof (count_first_choices_wf t) as Hwf.
  pose proof (count_first_choices_nonnegative t Hnn) as Hdnn.
  destruct (round_total t) as [Hsum Htotal].
  assert (Hall : sole_positive (count_first_choices t) \/
                 holds_whole (count_first_choices t) ->
                 holds_whole (count_first_choices t)).
  { intros [[c [n [Hg [Hpos Hsole]]]] | Hh]; [|exact Hh].
    exists c, n. split; [exact Hg|]. rewrite <- Hsum. symmetry.
    apply (sum_sole _ c n Hwf Hg). intros c' n' Hin Hc'.
    unfold nonnegative in Hdnn. rewrite Forall_forall in Hdnn.
    specialize (Hdnn _ Hin). simpl in Hdnn.
    destruct (Z.eq_dec n' 0) as [|Hnz]; [assumption|].
    exfalso. apply Hc'. apply (Hsole c' n'); [now apply wf_In_get | lia]. }
  destruct (rcv_round_cases t tb)
    as [[Hd _] | [[w [n [Hin [Hn Hr]]]] | [Hlen [Hnone [we [re [e [tl [_ Hr]]]]]]]]];
    [contradiction | |].
  - assert (Hg : get (count_first_choices t) w = Some n)
      by now apply wf_In_get.
    assert (Hh : holds_whole (count_first_choices t)).
    { exists w, n. split; [exact Hg | now rewrite <- Hsum]. }
    split; [|split; [|split]].
    + split; [intros _; now right | intros _; now exists w].
    + intros w' d' Hw'. rewrite Hr in Hw'. injection Hw' as <- <-.
      split; [reflexivity|]. exists n. split; [exact Hg|].
      split; [now rewrite <- Hsum | now rewrite <- Htotal, <- Hsum].
    + intros Hno. exfalso. apply Hno. now right.
    + intros Hlen.
      destruct (count_first_choices t) as [|[k v] [|? ?]] eqn:Hd;
        try discriminate.
      exists k, v. split; [reflexivity|].
      destruct Hin as [[= <- <-] | []]. exact Hr.
  - assert (Hno : ~ holds_whole (count_first_choices t)).
    { intros [c [n [Hg Hn]]]. apply (Hnone c n); [now apply get_Some_In|].
      now rewrite Hsum. }
    split; [|split; [|split]].
    + split.
      * intros [w Hw]. rewrite Hr in Hw. discriminate.
      * intros H. exfalso. apply Hno, Hall, H.
    + intros w d' Hw. rewrite Hr in Hw. discriminate.
    + intros _. now exists e.
    + intros Hone. lia.
Qed.

Lemma round_winner_iff_witness :
  rcv_round [(["a"], 5); (["b"; "c"], 0); (["a"; "b"], 2)] []
  = inr (Winner "a" [("a", 7); ("b", 0)]).
Proof.
  assert (Hnn : nonnegative [(["a"], 5); (["b"; "c"], 0); (["a"; "b"], 2)]).
  { repeat constructor; simpl; lia. }
  assert (Hne : count_first_choices
                  [(["a"], 5); (["b"; "c"], 0); (["a"; "b"], 2)] <> []).
  { vm_compute. discriminate. }
  destruct (round_winner_iff [(["a"], 5); (["b"; "c"], 0); (["a"; "b"], 2)]
              [] Hnn Hne) as [Hiff [Hpin _]].
  replace (count_first_choices _) with [("a", 7); ("b", 0)] in *
    by (vm_compute; reflexivity).
  destruct Hiff as [_ Hwin].
  destruct Hwin as [w Hw].
  { left. exists "a"%string, 7. split; [reflexivity|]. split; [lia|].
    intros c' n' Hg Hpos. apply get_Some_In in Hg.
    destruct Hg as [[= <- <-] | [[= <- <-] | []]]; [reflexivity | lia]. }
  destruct (Hpin w _ Hw) as [_ [n [Hg [Hn _]]]].
  simpl in Hn. subst n. apply get_Some_In in Hg.
  destruct Hg as [Heq | [Heq | []]].
  - injection Heq as <-. exact Hw.
  - exfalso. congruence.
Defined.

(** C8, as the code has it.  A token of the form ["<rank>-<candidate>"]
    whose candidate has a dash of its own splits into three parts: the
    unpacking fails, and the IRV entry with it. *)
Lemma adapter_dashed_candidate_counterexample :
  "1-Anne-Marie"%string = ("1" ++ "-" ++ "Anne-Marie")%string
  /\ adapt ["1-Anne-Marie"] = inl ValueError
  /\ IRV 5 [(["1-Anne-Marie"; "2-Bob"], 1)] = Some (inl ValueError).
Proof. repeat split. Qed.

(** C8, amended.  On a ballot of rank tokens with one dash each (neither
    the rank nor the candidate has a dash) the adapter sorts the tokens as
    strings, takes each apart at its dash and returns the candidates in the
    sorted order of the tokens: rank 10 comes before rank 2.  The IRV entry
    adapts every ballot of its tally this way: the adapted tally has the
    adapted ballots for keys and for each the count of the last vote that
    stands for it.  On that tally, with empty tie-break order, it fails on
    the assertion when no adapted ballot has a candidate, and otherwise,
    once the fuel exceeds the number of distinct candidates, returns the
    one-element sequence of the winner of the winner loop, a candidate of
    some ballot; it returns [c] when all the adapted ballots that are not
    empty begin with [c].  A token that does not split in two makes it fail
    on the unpacking, whatever the fuel. *)
Theorem adapter_sorts_tokens_as_strings :
  (forall vote, Forall rank_token vote ->
     Permutation (sorted String.leb vote) vote
     /\ StronglySorted (fun a b => String.leb a b = true)
          (sorted String.leb vote)
     /\ adapt vote = inr (map candidate_part (sorted String.leb vote)))
  /\ (forall rank candidate,
        dash_free rank = true -> dash_free candidate = true ->
        unpack_rank_candidate (rank ++ "-" ++ candidate)%string
        = inr (rank, candidate)
        /\ candidate_part (rank ++ "-" ++ candidate)%string = candidate)
  /\ adapt ["2-b"; "10-a"] = inr ["a"; "b"]
  /\ (forall tally,
        Forall (fun kv => Forall rank_token (fst kv)) tally ->
        exists ordered_tally,
          ordered_tally_loop tally [] = inr ordered_tally
          /\ wf ordered_tally
          /\ (forall s, In s (keys ordered_tally) <->
                exists vote, In vote (keys tally) /\ adapted_ballot vote = s)
          /\ (forall s, get ordered_tally s = last_count tally s)
          /\ (count_first_choices ordered_tally = [] ->
              forall fuel, IRV (S fuel) tally = Some (inl AssertionError))
          /\ (count_first_choices ordered_tally <> [] ->
              forall fuel,
                (length (support ordered_tally) + 1 <= fuel)%nat ->
                exists w,
                  rcv_winner fuel ordered_tally [] = Some (inr w)
                  /\ In w (support ordered_tally)
                  /\ IRV fuel tally = Some (inr [w]))
          /\ (forall fuel outcome,
                IRV fuel tally = Some (inr outcome) ->
                exists w, outcome = [w] /\
                  rcv_winner fuel ordered_tally [] = Some (inr w))
          /\ (forall c,
                (forall b, In b (keys ordered_tally) ->
                           b = [] \/ exists rest, b = c :: rest) ->
                (exists rest, In (c :: rest) (keys ordered_tally)) ->
                forall fuel, IRV (S fuel) tally = Some (inr [c])))
  /\ (forall tally vote n tok,
        In (vote, n) tally -> In tok vote -> ~ unpacks tok ->
        forall fuel, IRV fuel tally = Some (inl ValueError)).
Proof.
  split; [|split; [|split; [|split]]].
  - intros vote Hv. split; [apply sorted_perm|].
    split; [apply string_leb_StronglySorted | now apply adapt_tokens].
  - intros rank candidate Hr Hc.
    split; [now apply unpack_token | now apply candidate_part_token].
  - reflexivity.
  - intros tally Ht.
    destruct (ordered_tally_loop_adapted tally [] Ht)
      as [ot [Hot [Hwf [Hkeys Hget]]]].
    exists ot. split; [exact Hot|]. split; [apply Hwf; constructor|].
    split; [intros s; rewrite Hkeys; simpl; tauto|].
    split; [intros s; rewrite Hget; simpl; now destruct (last_count tally s)|].
    unfold IRV. rewrite Hot. split; [|split; [|split]].
    + intros Hd fuel. now rewrite (rcv_round_exhausted ot [] fuel Hd).
    + intros Hne fuel Hfuel.
      destruct (rcv_winner_loop_winner fuel 0 ot [] Hne) as [n [w [Hl Hw]]];
        [lia|].
      assert (Hr : rcv_winner fuel ot [] = Some (inr w))
        by (unfold rcv_winner; now rewrite Hl).
      exists w. split; [exact Hr|]. split; [exact Hw|]. now rewrite Hr.
    + intros fuel outcome.
      destruct (rcv_winner fuel ot []) as [[err|w]|]; try discriminate.
      intros [= <-]. now exists w.
    + intros c Hall Hc fuel. unfold rcv_winner. simpl.
      now rewrite (rcv_round_same_first ot [] c Hall Hc).
  - intros tally vote n tok Hv Htok Hn fuel. unfold IRV.
    now rewrite (ordered_tally_loop_malformed tally [] vote n tok).
Qed.

Lemma adapter_sorts_tokens_as_strings_witness :
  exists ordered_tally w,
    ordered_tally_loop
      [(["1-a"; "3-b"; "2-c"], 3); (["2-a"; "1-b"], 4); (["10-a"; "2-b"], 2);
       (["1-a"; "2-b"], 1)] [] = inr ordered_tally
    /\ get ordered_tally ["a"; "b"] = Some 1
    /\ IRV 4 [(["1-a"; "3-b"; "2-c"], 3); (["2-a"; "1-b"], 4);
              (["10-a"; "2-b"], 2); (["1-a"; "2-b"], 1)] = Some (inr [w]).
Proof.
  destruct adapter_sorts_tokens_as_strings as [_ [_ [_ [Hirv _]]]].
  destruct (Hirv [(["1-a"; "3-b"; "2-c"], 3); (["2-a"; "1-b"], 4);
                  (["10-a"; "2-b"], 2); (["1-a"; "2-b"], 1)])
    as [ot [Hloop [_ [_ [Hget [_ [Hwin _]]]]]]].
  { repeat constructor.
    - exists "1"%string, "a"%string. repeat split; reflexivity.
    - exists "3"%string, "b"%string. repeat split; reflexivity.
    - exists "2"%string, "c"%string. repeat split; reflexivity.
    - exists "2"%string, "a"%string. repeat split; reflexivity.
    - exists "1"%string, "b"%string. repeat split; reflexivity.
    - exists "10"%string, "a"%string. repeat split; reflexivity.
    - exists "2"%string, "b"%string. repeat split; reflexivity.
    - exists "1"%string, "a"%string. repeat split; reflexivity.
    - exists "2"%string, "b"%string. repeat split; reflexivity. }
  assert (Hot : ot = [(["a"; "c"; "b"], 3); (["b"; "a"], 4); (["a"; "b"], 1)]).
  { vm_compute in Hloop. now injection Hloop as <-. }
  destruct (Hwin) with (fuel := 4%nat) as [w [_ [_ Hw]]].
  - rewrite Hot. vm_compute. discriminate.
  - rewrite Hot. vm_compute. lia.
  - exists ot, w. split; [exact Hloop|]. split; [|exact Hw].
    rewrite Hget. reflexivity.
Defined.

Import PrimFloat.

(** C2, as the code has it.  With float counts the sum of the weights
    rounds: [1e16 + 1.0] is [1e16].  On the tally of one ballot [(a)] of
    weight [1e16] and one ballot [(b)] of weight [1.0] the round declares
    [a] the winner, although two choices have positive weight and no weight
    is the sum of the two. *)
Lemma round_winner_float_counterexample :
  RcvFloat.rcv_round [(["a"], 1e16%float); (["b"], 1%float)] []
  = inr (RcvFloat.Winner "a" [("a", 1e16%float); ("b", 1%float)])
  /\ FloatSpec.exact 1e16%float = Some (10 ^ 16 * 2 ^ 1074)
  /\ FloatSpec.exact 1%float = Some (2 ^ 1074)
  /\ ~ FloatSpec.sole_positive [("a", 1e16%float); ("b", 1%float)]
  /\ ~ FloatSpec.holds_whole [("a", 1e16%float); ("b", 1%float)].
Proof.
  split; [vm_compute; reflexivity|].
  split; [vm_compute; reflexivity|].
  split; [vm_compute; reflexivity|].
  split.
  - intros [c [w [x [_ [_ [_ Huniq]]]]]].
    assert (Ha : "a"%string = c).
    { apply (Huniq "a"%string 1e16%float (10 ^ 16 * 2 ^ 1074));
        vm_compute; reflexivity. }
    assert (Hb : "b"%string = c).
    { apply (Huniq "b"%string 1%float (2 ^ 1074)); vm_compute; reflexivity. }
    congruence.
  - intros [c [w [x [s [Hg [Hx [Hs Heq]]]]]]].
    vm_compute in Hs. injection Hs as Hs. subst s.
    apply get_Some_In in Hg.
    destruct Hg as [Hin | [Hin | []]]; injection Hin as <- <-;
      vm_compute in Hx; injection Hx as Hx; subst x; discriminate Heq.
Qed.
